(** * Circle-packing plugin: level parser, hierarchy builder, search index,
      focus resolution, aggregate weights and label selection.

    Shallow embedding of [src/utils/dataTransform.ts], [src/App.tsx] and
    [src/components/CirclePacking.tsx].

    Conventions of the embedding
    - a JavaScript string is the list of its UTF-16 code units ([list N]);
    - an optional value ([null], [undefined]) is [option];
    - market values are exact integers ([Z]); circle geometry is over the
      real numbers ([R]);
    - JavaScript objects that are mutated through several references (the
      nodes registered in [nodeMap]) live in an explicit store, a list of
      objects indexed by reference. *)

From Stdlib Require Import ZArith NArith List Sorted Permutation Ascii String Reals Lra Lia.
From stdpp Require Import base option list gmap.

Local Open Scope N_scope.

(** ** JavaScript strings *)

Abbreviation jsstring := (list N).

(** String literal: the code units of an ASCII text. *)
Definition lit (s : string) : jsstring :=
  map N_of_ascii (list_ascii_of_string s).

(** ECMAScript [LineTerminator]: LF, CR, LS, PS. *)
Definition isLineTerminator (c : N) : bool :=
  (c =? 10) || (c =? 13) || (c =? 8232) || (c =? 8233).

(** ECMAScript [WhiteSpace] together with [LineTerminator]: the characters
    matched by the class escape [\s] and stripped by [String.prototype.trim]. *)
Definition isWhiteSpace (c : N) : bool :=
  (c =? 9) || (c =? 10) || (c =? 11) || (c =? 12) || (c =? 13) || (c =? 32)
  || (c =? 160) || (c =? 5760) || ((8192 <=? c) && (c <=? 8202))
  || (c =? 8232) || (c =? 8233) || (c =? 8239) || (c =? 8287)
  || (c =? 12288) || (c =? 65279).

Fixpoint dropWhile {A} (p : A -> bool) (l : list A) : list A :=
  match l with
  | [] => []
  | x :: l' => if p x then dropWhile p l' else l
  end.

Fixpoint takeWhile {A} (p : A -> bool) (l : list A) : list A :=
  match l with
  | [] => []
  | x :: l' => if p x then x :: takeWhile p l' else []
  end.

Definition trimStart (s : jsstring) : jsstring := dropWhile isWhiteSpace s.
Definition trimEnd (s : jsstring) : jsstring :=
  rev (dropWhile isWhiteSpace (rev s)).

(** [String.prototype.trim] *)
Definition trim (s : jsstring) : jsstring := trimEnd (trimStart s).

(** [Array.prototype.join] on an array of strings. *)
Fixpoint join (sep : jsstring) (parts : list jsstring) : jsstring :=
  match parts with
  | [] => []
  | [p] => p
  | p :: rest => p ++ sep ++ join sep rest
  end.

Fixpoint startsWith (s t : jsstring) : bool :=
  match t, s with
  | [], _ => true
  | _ :: _, [] => false
  | b :: t', a :: s' => (a =? b) && startsWith s' t'
  end.

(** [String.prototype.includes] *)
Fixpoint includes (s t : jsstring) : bool :=
  startsWith s t ||
  match s with
  | [] => false
  | _ :: s' => includes s' t
  end.

(** Truthiness of an optional string: [null], [undefined] and the empty
    string are falsy. *)
Definition truthy (s : option jsstring) : bool :=
  match s with
  | Some (_ :: _) => true
  | _ => false
  end.

(** ** A backtracking matcher for the regular expressions the parser uses

    A pattern is a sequence of character classes, each under a quantifier
    and possibly inside a capture group, anchored at both ends.  The
    matcher explores the alternatives in the order of the ECMAScript
    semantics: a greedy quantifier tries the longest run first, a lazy one
    the shortest. *)

Inductive quantifier := Once | GreedyStar | GreedyPlus | LazyPlus.

Record atom := Atom { cls : N -> bool; quant : quantifier; captured : bool }.

Section Backtracking.
Context {Res : Type}.
Variable c : N -> bool.
Variable k : jsstring -> jsstring -> option Res.

(** [c*], greedy, after [taken]: take one more character and go on; when
    that leads nowhere, hand what was taken to the continuation [k]. *)
Fixpoint greedy (taken s : jsstring) : option Res :=
  match s with
  | x :: s' =>
      if c x then
        match greedy (taken ++ [x]) s' with
        | Some r => Some r
        | None => k taken s
        end
      else k taken s
  | [] => k taken s
  end.

(** [c+?], lazy, after [taken]: take one character and try the
    continuation; take a further one only when that fails. *)
Fixpoint lazy (taken s : jsstring) : option Res :=
  match s with
  | x :: s' =>
      if c x then
        match k (taken ++ [x]) s' with
        | Some r => Some r
        | None => lazy (taken ++ [x]) s'
        end
      else None
  | [] => None
  end.

(** One atom of class [c] under the quantifier [q], then [k]. *)
Definition quantified (q : quantifier) (s : jsstring) : option Res :=
  match q with
  | Once =>
      match s with
      | x :: s' => if c x then k [x] s' else None
      | [] => None
      end
  | GreedyStar => greedy [] s
  | GreedyPlus =>
      match s with
      | x :: s' => if c x then greedy [x] s' else None
      | [] => None
      end
  | LazyPlus => lazy [] s
  end.
End Backtracking.

(** The text taken by an atom inside a capture group is recorded. *)
Definition addGroup (a : atom) (taken : jsstring) (r : option (list jsstring))
  : option (list jsstring) :=
  match r with
  | Some groups => Some (if captured a then taken :: groups else groups)
  | None => None
  end.

(** Match [p] against the whole of [s] ([^ ... $]); the result lists the
    capture groups in order. *)
Fixpoint matchAnchored (p : list atom) (s : jsstring) : option (list jsstring) :=
  match p with
  | [] => match s with [] => Some [] | _ :: _ => None end
  | a :: p' =>
      quantified (cls a)
        (fun taken rest => addGroup a taken (matchAnchored p' rest))
        (quant a) s
  end.

(** [String.prototype.match] with an anchored, non-global pattern: the
    match array holds the matched text followed by the groups. *)
Definition jsMatch (p : list atom) (s : jsstring) : option (list jsstring) :=
  match matchAnchored p s with
  | Some groups => Some (s :: groups)
  | None => None
  end.

(** The character classes of the pattern: a literal character, [[^ch]],
    [.] (without the [s] flag) and [[A-Z0-9]]. *)
Definition isChar (ch : N) (x : N) : bool := x =? ch.
Definition notChar (ch : N) (x : N) : bool := negb (x =? ch).
Definition dot (x : N) : bool := negb (isLineTerminator x).
Definition isUpperOrDigit (x : N) : bool :=
  ((65 <=? x) && (x <=? 90)) || ((48 <=? x) && (x <=? 57)).

(** The code units of "(", ")", "-" and "|". *)
Definition LPAREN : N := 40.
Definition RPAREN : N := 41.
Definition HYPHEN : N := 45.
Definition PIPE : N := 124.

(** [/^(.+?)\s*\(([^)]+)\)-([A-Z0-9]+)$/] *)
Definition levelRegex : list atom :=
  [ Atom dot LazyPlus true;
    Atom isWhiteSpace GreedyStar false;
    Atom (isChar LPAREN) Once false;
    Atom (notChar RPAREN) GreedyPlus true;
    Atom (isChar RPAREN) Once false;
    Atom (isChar HYPHEN) Once false;
    Atom isUpperOrDigit GreedyPlus true ].

(** ** LevelParser *)

Module ParsedLevel.
Record t := mk { name : jsstring; buCode : jsstring; beblCode : jsstring; raw : jsstring }.
End ParsedLevel.
Abbreviation ParsedLevel := ParsedLevel.t.

(** [match[i]] *)
Definition group (m : list jsstring) (i : nat) : jsstring := nth i m [].

(** [parseLevel]: [null] for an absent or empty string, the three groups
    trimmed when the pattern matches, the fallback otherwise. *)
Definition parseLevel (levelString : option jsstring) : option ParsedLevel :=
  match levelString with
  | None => None
  | Some [] => None
  | Some s =>
      match jsMatch levelRegex s with
      | None =>
          Some (ParsedLevel.mk (trim s) [] [] s)
      | Some m =>
          Some (ParsedLevel.mk (trim (group m 1)) (trim (group m 2)) (trim (group m 3)) s)
      end
  end.

(** ** Rows and hierarchy nodes *)

Module SigmaDataRow.
Record t := mk {
  marketValue : option Z;
  beblFullName : option jsstring;
  level0 : option jsstring; level1 : option jsstring; level2 : option jsstring;
  level3 : option jsstring; level4 : option jsstring; level5 : option jsstring;
  level6 : option jsstring; level7 : option jsstring; level8 : option jsstring;
  level9 : option jsstring; level10 : option jsstring }.
End SigmaDataRow.
Abbreviation SigmaDataRow := SigmaDataRow.t.

(** The scalar properties of a [HierarchyNode] object. *)
Module Fields.
Record t := mk {
  name : jsstring;
  buCode : option jsstring;
  beblCode : option jsstring;
  beblFullName : option jsstring;
  rawLabel : option jsstring;
  value : option Z;
  level : Z;
  path : jsstring }.
End Fields.

(** A [HierarchyNode] read as a tree.  Every node the builder creates has a
    [children] array; a missing array and an empty one are treated alike by
    every reader of the tree, so [children] is a plain list. *)
Unset Elimination Schemes.
Inductive HierarchyNode := Node { fields : Fields.t; children : list HierarchyNode }.
Set Elimination Schemes.

(** A [HierarchyNode] object in the store: its children are references. *)
Record NodeObj := Obj { ofields : Fields.t; ochildren : list nat }.

Abbreviation Store := (list NodeObj).

(** [x || 0] on an optional number. *)
Definition orZero (x : option Z) : Z :=
  match x with
  | Some v => v
  | None => 0%Z
  end.

(** The array [levels] of [extractPath]: the eleven level fields in order. *)
Definition levels (row : SigmaDataRow) : list (option jsstring) :=
  [ SigmaDataRow.level0 row; SigmaDataRow.level1 row; SigmaDataRow.level2 row;
    SigmaDataRow.level3 row; SigmaDataRow.level4 row; SigmaDataRow.level5 row;
    SigmaDataRow.level6 row; SigmaDataRow.level7 row; SigmaDataRow.level8 row;
    SigmaDataRow.level9 row; SigmaDataRow.level10 row ].

(** The [for (const level of levels)] loop of [extractPath]. *)
Fixpoint extractPathLoop (ls : list (option jsstring)) (path : list ParsedLevel)
  : list ParsedLevel :=
  match ls with
  | [] => path
  | level :: rest =>
      if negb (truthy level) then path
      else match parseLevel level with
           | Some parsed => extractPathLoop rest (path ++ [parsed])
           | None => extractPathLoop rest path
           end
  end.

(** The effective path of a row, each level parsed. *)
Definition extractPath (row : SigmaDataRow) : list ParsedLevel :=
  extractPathLoop (levels row) [].

(** [pathArray.map(p => p.raw).join('|')] *)
Definition buildPathKey (pathArray : list ParsedLevel) : jsstring :=
  join [PIPE] (map ParsedLevel.raw pathArray).

(** [Array.prototype.forEach] with the element index. *)
Fixpoint forEachFrom {A St} (f : St -> A -> nat -> St) (l : list A) (i : nat) (s : St) : St :=
  match l with
  | [] => s
  | x :: l' => forEachFrom f l' (S i) (f s x i)
  end.

Definition forEach {A St} (f : St -> A -> nat -> St) (l : list A) (s : St) : St :=
  forEachFrom f l 0%nat s.

(** State of the builder: the object store, [nodeMap], and the reference
    held by [parentNode].  The root object has reference 0. *)
Record Builder := mkBuilder {
  heap : Store;
  nodeMap : gmap jsstring nat;
  parentNode : nat }.

(** The root: [{ name: 'Root', level: -1, path: '', children: [] }]. *)
Definition rootFields : Fields.t :=
  Fields.mk (lit "Root") None None None None None (-1)%Z [].

(** The store holds the root alone, registered under the empty key. *)
Definition initialBuilder : Builder :=
  mkBuilder [Obj rootFields []] {[ [] := 0%nat ]} 0%nat.

(** [parentNode.children.push(newNode)] *)
Definition pushChild (child : nat) (o : NodeObj) : NodeObj :=
  Obj (ofields o) (ochildren o ++ [child]).

(** Assignment to the property [value]. *)
Definition setValue (v : option Z) (f : Fields.t) : Fields.t :=
  Fields.mk (Fields.name f) (Fields.buCode f) (Fields.beblCode f)
    (Fields.beblFullName f) (Fields.rawLabel f) v (Fields.level f) (Fields.path f).

(** [existingNode.value += marketValue] when a value is present,
    [existingNode.value = marketValue] otherwise. *)
Definition accumulate (marketValue : Z) (f : Fields.t) : Fields.t :=
  match Fields.value f with
  | Some v => setValue (Some (v + marketValue)%Z) f
  | None => setValue (Some marketValue) f
  end.

(** The same update, on the object in the store. *)
Definition addValue (marketValue : Z) (o : NodeObj) : NodeObj :=
  Obj (accumulate marketValue (ofields o)) (ochildren o).

(** Body of [path.forEach((level, index) => ...)]. *)
Definition visitLevel (beblFullNameMap : option (gmap jsstring jsstring))
    (marketValue : Z) (path : list ParsedLevel)
    (b : Builder) (level : ParsedLevel) (index : nat) : Builder :=
  let pathUpToCurrent := take (index + 1) path in
  let nodePathKey := buildPathKey pathUpToCurrent in
  match nodeMap b !! nodePathKey with
  | None =>
      let newFields :=
        Fields.mk (ParsedLevel.name level) (Some (ParsedLevel.buCode level))
          (Some (ParsedLevel.beblCode level))
          (beblFullNameMap ≫= (fun m => m !! nodePathKey))
          (Some (ParsedLevel.raw level))
          (if (index =? length path - 1)%nat then Some marketValue else None)
          (Z.of_nat index) nodePathKey in
      let ref := length (heap b) in
      mkBuilder (alter (pushChild ref) (parentNode b) (heap b) ++ [Obj newFields []])
        (<[nodePathKey := ref]> (nodeMap b)) ref
  | Some existingNode =>
      mkBuilder
        (if (index =? length path - 1)%nat
         then alter (addValue marketValue) existingNode (heap b)
         else heap b)
        (nodeMap b) existingNode
  end.

(** Body of [rows.forEach(row => ...)]. *)
Definition processRow (beblFullNameMap : option (gmap jsstring jsstring))
    (b : Builder) (row : SigmaDataRow) : Builder :=
  let marketValue := orZero (SigmaDataRow.marketValue row) in
  let path := extractPath row in
  match path with
  | [] => b
  | _ :: _ =>
      forEach (visitLevel beblFullNameMap marketValue path) path
        (mkBuilder (heap b) (nodeMap b) 0%nat)
  end.

(** The state after [rows.forEach]. *)
Definition build (rows : list SigmaDataRow)
    (beblFullNameMap : option (gmap jsstring jsstring)) : Builder :=
  foldl (processRow beblFullNameMap) initialBuilder rows.

(** Stands for a reference outside the store or below the fuel; the builder
    never produces one (lemma [build_wf]). *)
Definition missingNode : HierarchyNode := Node rootFields [].

(** The object graph below reference [ref], read as a tree. *)
Fixpoint reify (fuel : nat) (h : Store) (ref : nat) : HierarchyNode :=
  match fuel with
  | O => missingNode
  | S fuel' =>
      match h !! ref with
      | Some o => Node (ofields o) (map (reify fuel' h) (ochildren o))
      | None => missingNode
      end
  end.

(** [return root]: the object graph below the root, read as a tree.  A
    child has a larger reference than its parent, so the size of the store
    is fuel enough. *)
Definition transformToHierarchy (rows : list SigmaDataRow)
    (beblFullNameMap : option (gmap jsstring jsstring)) : HierarchyNode :=
  let b := build rows beblFullNameMap in
  reify (length (heap b)) (heap b) 0.

(** ** SearchIndexer *)

Module SearchResult.
Record t := mk {
  name : jsstring;
  buCode : option jsstring;
  beblCode : option jsstring;
  beblFullName : option jsstring;
  rawLabel : option jsstring;
  path : jsstring;
  value : Z;
  level : Z }.
End SearchResult.
Abbreviation SearchResult := SearchResult.t.

(** The object literal pushed by [flattenHierarchy]. *)
Definition searchRecord (f : Fields.t) : SearchResult :=
  SearchResult.mk (Fields.name f) (Fields.buCode f) (Fields.beblCode f)
    (Fields.beblFullName f) (Fields.rawLabel f) (Fields.path f)
    (orZero (Fields.value f)) (Fields.level f).

(** [flattenHierarchy(node, results)], the array [results] it pushes to
    passed along; the caller starts from the empty array. *)
Fixpoint flattenHierarchy (node : HierarchyNode) (results : list SearchResult)
  : list SearchResult :=
  let results1 :=
    if (0 <=? Fields.level (fields node))%Z
    then results ++ [searchRecord (fields node)]
    else results in
  foldl (fun acc child => flattenHierarchy child acc) results1 (children node).

Section Search.
(** [String.prototype.toLowerCase]: the Unicode case mapping is a table of
    the host; the search is modelled for any such mapping. *)
Variable toLowerCase : jsstring -> jsstring.

(** [field && field.toLowerCase().includes(term)] *)
Definition fieldIncludes (field : option jsstring) (term : jsstring) : bool :=
  match field with
  | Some (x :: s) => includes (toLowerCase (x :: s)) term
  | _ => false
  end.

(** [searchNodes]: nothing for a blank query, otherwise the records one of
    whose fields contains the lower-cased query. *)
Definition searchNodes (searchTerm : jsstring) (searchResults : list SearchResult)
  : list SearchResult :=
  match trim searchTerm with
  | [] => []
  | _ :: _ =>
      let term := toLowerCase searchTerm in
      List.filter
        (fun result =>
           includes (toLowerCase (SearchResult.name result)) term
           || fieldIncludes (SearchResult.buCode result) term
           || fieldIncludes (SearchResult.beblCode result) term
           || fieldIncludes (SearchResult.beblFullName result) term
           || fieldIncludes (SearchResult.rawLabel result) term)
        searchResults
  end.
End Search.

(** A lower-casing of the ASCII letters, to run the search on examples. *)
Definition asciiToLowerCase (s : jsstring) : jsstring :=
  map (fun x => if (65 <=? x) && (x <=? 90) then x + 32 else x) s.

(** ** Focus resolution ([App.tsx]) *)

(** [a === b] on strings. *)
Definition eqPath (a b : jsstring) : bool := bool_decide (a = b).

(** [findNode], declared with the same body in [handleSearchSelect], in
    [CirclePacking] and as [findNodeByPath]. *)
Fixpoint findNode (node : HierarchyNode) (path : jsstring) : option HierarchyNode :=
  if eqPath (Fields.path (fields node)) path then Some node
  else
    (fix firstFound (cs : list HierarchyNode) : option HierarchyNode :=
       match cs with
       | [] => None
       | child :: cs' =>
           match findNode child path with
           | Some found => Some found
           | None => firstFound cs'
           end
       end) (children node).

(** [findPath] with the array [trail] it mutates passed along. *)
Fixpoint findPath (current : HierarchyNode) (targetPath : jsstring)
    (trail : list HierarchyNode) : bool * list HierarchyNode :=
  if eqPath (Fields.path (fields current)) targetPath then
    (true, if (0 <=? Fields.level (fields current))%Z then trail ++ [current] else trail)
  else
    (fix overChildren (cs : list HierarchyNode) (trail : list HierarchyNode)
       : bool * list HierarchyNode :=
       match cs with
       | [] => (false, trail)
       | child :: cs' =>
           let '(hit, trail1) := findPath child targetPath trail in
           if hit then
             (true, if (0 <=? Fields.level (fields current))%Z
                    then current :: trail1 else trail1)
           else overChildren cs' trail1
       end) (children current) trail.

(** The React state the handlers write. *)
Record AppState := mkAppState {
  focusedPath : option jsstring;
  breadcrumbs : list HierarchyNode }.

(** [handleSearchSelect]: the state after the handler has run, [st] being
    the state before. *)
Definition handleSearchSelect (hierarchyData : option HierarchyNode)
    (result : SearchResult) (st : AppState) : AppState :=
  match hierarchyData with
  | None => st
  | Some data =>
      match findNode data (SearchResult.path result) with
      | None => st
      | Some foundNode =>
          match children foundNode with
          | _ :: _ =>
              mkAppState (Some (SearchResult.path result))
                (snd (findPath data (SearchResult.path result) []))
          | [] => st
          end
      end
  end.

(** ** Layout: focus and aggregate weights ([CirclePacking.tsx]) *)

(** The memo [focusedNode]: the tree itself without a focus, else the node
    found for the focused path, or the tree when there is none. *)
Definition focusedNode (data : HierarchyNode) (focusedPath : option jsstring)
  : HierarchyNode :=
  if truthy focusedPath then
    match findNode data (default [] focusedPath) with
    | Some n => n
    | None => data
    end
  else data.

(** [Array.prototype.sort] with a comparator, [before a b] standing for
    [compare(a, b) <= 0]: the sort is stable, and for a comparator that
    orders the elements every stable sort returns the list built here by
    insertion. *)
Fixpoint insertSorted {A} (before : A -> A -> bool) (x : A) (l : list A) : list A :=
  match l with
  | [] => [x]
  | y :: l' => if before y x then y :: insertSorted before x l' else x :: l
  end.

Definition stableSort {A} (before : A -> A -> bool) (l : list A) : list A :=
  foldl (fun sorted x => insertSorted before x sorted) [] l.

Unset Elimination Schemes.
Inductive D3Node := D3 {
  data : HierarchyNode;
  depth : nat;
  d3value : option Z;
  d3children : list D3Node }.
Set Elimination Schemes.

(** Modelled from the spec: [d3.hierarchy], whose code is the d3-hierarchy
    package and not part of the sources.  Each node wraps its datum and
    records its depth below the node the hierarchy was made from. *)
Fixpoint hierarchyFrom (depth : nat) (d : HierarchyNode) : D3Node :=
  D3 d depth None (map (hierarchyFrom (S depth)) (children d)).

(** Modelled from the spec: [d3.hierarchy(data)], of the d3-hierarchy package:
    the hierarchy rooted at [data], at depth 0. *)
Definition hierarchy (d : HierarchyNode) : D3Node := hierarchyFrom 0 d.

(** Modelled from the spec: the node method [sum] of d3-hierarchy, not part
    of the sources: every node's value is the accessor's value at its datum
    plus the values of its children (section 4.3, weight computation). *)
Fixpoint d3sum (accessor : HierarchyNode -> Z) (n : D3Node) : D3Node :=
  let cs := map (d3sum accessor) (d3children n) in
  D3 (data n) (depth n)
    (Some (foldl (fun sum child => (sum + orZero (d3value child))%Z)
             (accessor (data n)) (rev cs)))
    cs.

(** Modelled from the spec: the node method [sort] of d3-hierarchy, not part
    of the sources: the children of every node are sorted, ties keeping
    their insertion order (section 4.3, determinism). *)
Fixpoint d3sort (before : D3Node -> D3Node -> bool) (n : D3Node) : D3Node :=
  D3 (data n) (depth n) (d3value n)
    (stableSort before (map (d3sort before) (d3children n))).

(** Modelled from the spec: the node method [descendants] of d3-hierarchy. *)
Fixpoint descendants (n : D3Node) : list D3Node :=
  n :: flat_map descendants (d3children n).

(** The hierarchy laid out by [CirclePacking]:
    [d3.hierarchy(focusedNode).sum(d => d.value || 0)
       .sort((a, b) => (b.value || 0) - (a.value || 0))]. *)
Definition layoutHierarchy (data : HierarchyNode) (focusedPath : option jsstring)
  : D3Node :=
  d3sort
    (fun a b => (orZero (d3value b) - orZero (d3value a) <=? 0)%Z)
    (d3sum (fun d => orZero (Fields.value (fields d)))
       (hierarchy (focusedNode data focusedPath))).

(** ** LabelSelector ([CirclePacking.tsx]) *)

Module Circle.
(** A laid-out node as the label loop reads it: centre, radius and depth
    in the laid-out hierarchy, and the name shown. *)
Record t := mk { x : R; y : R; r : R; depth : nat; name : jsstring }.
End Circle.
Abbreviation Circle := Circle.t.

Definition Rltb (a b : R) : bool := if Rlt_dec a b then true else false.
Definition Rleb (a b : R) : bool := if Rle_dec a b then true else false.

Definition minLabelRadius : R := 35%R.
Definition overlapAllowance : R := 10%R.

Definition distance (candidate existing : Circle) : R :=
  let dx := (Circle.x candidate - Circle.x existing)%R in
  let dy := (Circle.y candidate - Circle.y existing)%R in
  sqrt (dx * dx + dy * dy).

Definition minDistance (candidate existing : Circle) : R :=
  (Circle.r candidate + Circle.r existing - overlapAllowance)%R.

(** [nodes.filter(d => d.r > 35 && d.depth > 0).sort((a, b) => b.r - a.r)] *)
Definition labelCandidates (nodes : list Circle) : list Circle :=
  stableSort (fun a b => Rleb (Circle.r b - Circle.r a) 0)
    (List.filter
       (fun d => Rltb minLabelRadius (Circle.r d) && (0 <? Circle.depth d)%nat)
       nodes).

(** The inner [for (const existing of labelsToShow)] loop. *)
Definition hasOverlap (candidate : Circle) (labelsToShow : list Circle) : bool :=
  existsb (fun existing => Rltb (distance candidate existing) (minDistance candidate existing))
    labelsToShow.

(** The outer [for (const candidate of labelCandidates)] loop. *)
Definition selectFrom (candidates : list Circle) (labelsToShow : list Circle)
  : list Circle :=
  foldl (fun shown candidate =>
           if hasOverlap candidate shown then shown else shown ++ [candidate])
    labelsToShow candidates.

Definition labelsToShow (nodes : list Circle) : list Circle :=
  selectFrom (labelCandidates nodes) [].

(** ** Vocabulary of the specification *)

(** *** Level strings *)

(** The language of [levelRegex], written out: a name without line
    terminators, optional white space, a parenthesised code without a
    closing parenthesis inside, a hyphen, and a suffix of capital letters
    and digits. *)
Definition LevelFormat (s nm ws code sfx : jsstring) : Prop :=
  s = nm ++ ws ++ LPAREN :: code ++ RPAREN :: HYPHEN :: sfx
  /\ nm <> [] /\ forallb dot nm = true
  /\ forallb isWhiteSpace ws = true
  /\ code <> [] /\ forallb (notChar RPAREN) code = true
  /\ sfx <> [] /\ forallb isUpperOrDigit sfx = true.

(** [s] matches the level pattern. *)
Definition MatchesLevelPattern (s : jsstring) : Prop :=
  exists nm ws code sfx, LevelFormat s nm ws code sfx.

(** The split of [s] with the shortest name. *)
Definition ShortestName (s nm : jsstring) : Prop :=
  forall nm' ws' code' sfx',
    LevelFormat s nm' ws' code' sfx' -> (length nm <= length nm')%nat.

Definition isAlphanumeric (x : N) : bool :=
  ((65 <=? x) && (x <=? 90)) || ((97 <=? x) && (x <=? 122))
  || ((48 <=? x) && (x <=? 57)).

(** The pattern in the words of the specification: "Name (Code)-Suffix"
    with one or more trailing alphanumeric characters as the suffix. *)
Definition SpecLevelForm (s nm code sfx : jsstring) : Prop :=
  s = nm ++ lit " (" ++ code ++ lit ")-" ++ sfx
  /\ sfx <> [] /\ forallb isAlphanumeric sfx = true.

(** A continuation of the matcher that cannot start on a character of the
    class [c]: a greedy run of [c] before it never gives a character back. *)
Definition Rejects {Res} (c : N -> bool) (k : jsstring -> jsstring -> option Res)
  : Prop :=
  forall t x rest, c x = true -> k t (x :: rest) = None.

(** *** Trees, weights and rows *)

(** The nodes of a tree, in pre-order. *)
Fixpoint nodes (t : HierarchyNode) : list HierarchyNode :=
  t :: flat_map nodes (children t).

Definition sumZ (l : list Z) : Z := foldr Z.add 0%Z l.

(** Direct value of a node, an absent one counting as 0. *)
Definition directValue (t : HierarchyNode) : Z := orZero (Fields.value (fields t)).

(** Sum of the direct values over a subtree, the node itself included. *)
Definition subtreeWeight (t : HierarchyNode) : Z := sumZ (map directValue (nodes t)).

(** Weight of a row, a missing one counting as 0. *)
Definition rowWeight (row : SigmaDataRow) : Z := orZero (SigmaDataRow.marketValue row).

(** The row has a non-empty effective path. *)
Definition hasPath (row : SigmaDataRow) : bool :=
  match extractPath row with [] => false | _ :: _ => true end.

(** The effective path of the row ends at the node with path key [key]. *)
Definition terminatesAt (key : jsstring) (row : SigmaDataRow) : bool :=
  hasPath row && bool_decide (buildPathKey (extractPath row) = key).

(** The weights of the rows that terminate at [key], added up; absent when
    no row terminates there. *)
Definition accumulated (rows : list SigmaDataRow) (key : jsstring) : option Z :=
  match List.filter (terminatesAt key) rows with
  | [] => None
  | r :: rs => Some (sumZ (map rowWeight (r :: rs)))
  end.

(** The effective path in the words of the specification: [present] are the
    level fields before the first missing or empty one. *)
Definition EffectivePath (ls : list (option jsstring)) (present : list jsstring) : Prop :=
  Forall (fun s => s <> []) present
  /\ exists rest, ls = map Some present ++ rest
       /\ match rest with [] => True | gap :: _ => truthy gap = false end.

(** *** The store of the builder *)

(** The store [h] holds below reference [ref] exactly the tree [t]. *)
Unset Elimination Schemes.
Inductive represents (h : Store) : nat -> HierarchyNode -> Prop :=
| represents_node ref o ts :
    h !! ref = Some o ->
    Forall2 (represents h) (ochildren o) ts ->
    represents h ref (Node (ofields o) ts).
Set Elimination Schemes.

(** The two updates of the builder, on the tree: a new leaf below the node
    with path key [key], and a weight added at the node with path key
    [key]. *)
Fixpoint graft (key : jsstring) (f : Fields.t) (t : HierarchyNode) : HierarchyNode :=
  Node (fields t)
    (map (graft key f) (children t)
     ++ if eqPath (Fields.path (fields t)) key then [Node f []] else []).

Fixpoint bump (key : jsstring) (marketValue : Z) (t : HierarchyNode) : HierarchyNode :=
  Node (if eqPath (Fields.path (fields t)) key
        then accumulate marketValue (fields t) else fields t)
    (map (bump key marketValue) (children t)).

(** Number of nodes of [t] with path key [key]. *)
Fixpoint occurrences (key : jsstring) (t : HierarchyNode) : nat :=
  (if eqPath (Fields.path (fields t)) key then 1 else 0)
  + list_sum (map (occurrences key) (children t)).

(** Sum of the direct values held in the store. *)
Definition heapWeight (h : Store) : Z :=
  sumZ (map (fun o => orZero (Fields.value (ofields o))) h).

(** The [value] of the object registered under [key], if any. *)
Definition valueAt (b : Builder) (key : jsstring) : option Z :=
  match nodeMap b !! key with
  | Some ref =>
      match heap b !! ref with
      | Some o => Fields.value (ofields o)
      | None => None
      end
  | None => None
  end.

(** Well-formedness of the builder state, with the tree [t] it stands for. *)
Record WellFormed (b : Builder) (t : HierarchyNode) : Prop := mkWellFormed {
  wf_represents : represents (heap b) 0 t;
  wf_root : nodeMap b !! [] = Some 0%nat;
  wf_parent : (parentNode b < length (heap b))%nat;
  wf_registered : forall key ref, nodeMap b !! key = Some ref ->
    exists o, heap b !! ref = Some o /\ Fields.path (ofields o) = key;
  wf_keyed : forall ref o, heap b !! ref = Some o ->
    nodeMap b !! Fields.path (ofields o) = Some ref;
  wf_once : forall ref o, heap b !! ref = Some o ->
    occurrences (Fields.path (ofields o)) t = 1%nat;
  wf_weight : subtreeWeight t = heapWeight (heap b);
  wf_forward : forall ref o child, heap b !! ref = Some o ->
    In child (ochildren o) -> (ref < child < length (heap b))%nat }.

(** *** Search, focus, layout and labels *)

(** Nodes other than the root, which carries the level -1. *)
Definition nonRoot (t : HierarchyNode) : bool := (0 <=? Fields.level (fields t))%Z.

(** The record [flattenHierarchy] pushes for a node. *)
Definition recordOf (t : HierarchyNode) : SearchResult := searchRecord (fields t).

(** The test of [findNode]. *)
Definition hasPathKey (key : jsstring) (t : HierarchyNode) : bool :=
  eqPath (Fields.path (fields t)) key.

(** The value the method [sum] leaves on a node: the accessor's values
    added up over the subtree of its datum. *)
Definition Aggregated (accessor : HierarchyNode -> Z) (n : D3Node) : Prop :=
  d3value n = Some (sumZ (map accessor (nodes (data n)))).

(** The circle of a candidate keeps the distance the label loop asks for
    from the circle of a label already shown. *)
Definition Separated (candidate existing : Circle) : Prop :=
  (minDistance candidate existing <= distance candidate existing)%R.




(** ** Example data *)

(** The two rows of the example in section 8 of the specification. *)
Definition exampleRow (weight : Z) (l0 l1 : string) : SigmaDataRow :=
  SigmaDataRow.mk (Some weight) None (Some (lit l0)) (Some (lit l1))
    None None None None None None None None None.

Definition exampleRows : list SigmaDataRow :=
  [ exampleRow 100 "A (1)-X" "B (2)-Y"; exampleRow 200 "A (1)-X" "C (3)-Z" ].

(** A small layout: a root, a large circle, a circle inside it, a circle
    apart from both, and a circle below the radius threshold. *)
Definition circleRoot : Circle := Circle.mk 400 300 300 0 (lit "Root").
Definition circleA : Circle := Circle.mk 250 300 120 1 (lit "A").
Definition circleB : Circle := Circle.mk 250 320 50 2 (lit "B").
Definition circleC : Circle := Circle.mk 600 300 60 1 (lit "C").
Definition circleD : Circle := Circle.mk 100 100 20 1 (lit "D").
Definition exampleCircles : list Circle :=
  [circleRoot; circleA; circleB; circleC; circleD].

(** ** Further code of the application *)

(** *** The other focus handlers of [App.tsx] *)

(** [handleNodeClick]: without a node the focus is reset; with one, the focus
    is its path and the breadcrumbs are the trail [findPath] leaves. *)
Definition handleNodeClick (hierarchyData : option HierarchyNode)
    (node : option HierarchyNode) (st : AppState) : AppState :=
  match node with
  | None => mkAppState None []
  | Some n =>
      mkAppState (Some (Fields.path (fields n)))
        (match hierarchyData with
         | Some data => snd (findPath data (Fields.path (fields n)) [])
         | None => []
         end)
  end.

(** [handleSearchClear] and [handleReset] *)
Definition handleSearchClear (st : AppState) : AppState := mkAppState None [].
Definition handleReset (st : AppState) : AppState := mkAppState None [].

(** [handleBreadcrumbClick] *)
Definition handleBreadcrumbClick (hierarchyData : option HierarchyNode)
    (node : HierarchyNode) (st : AppState) : AppState :=
  handleNodeClick hierarchyData (Some node) st.

(** The click handler of a circle ([CirclePacking.tsx]): the node handed to
    [onNodeClick], if any.  The root of the layout and childless nodes do
    not react. *)
Definition clickedNode (d : D3Node) : option HierarchyNode :=
  if (depth d =? 0)%nat then None
  else match children (data d) with
       | _ :: _ => Some (data d)
       | [] => None
       end.

(** *** The handlers as wired by [App.tsx] *)

(** What the user can do to the focus: click a circle of the layout, pick a
    search result, clear the search, press a reset button, click the
    breadcrumb at a position. *)
Inductive Event :=
| CircleClick (d : D3Node)
| SearchSelect (result : SearchResult)
| SearchClear
| ResetClick
| BreadcrumbClick (index : nat).

(** The state after the handler of the event has run on the tree
    [hierarchyData]. *)
Definition handle (hierarchyData : HierarchyNode) (st : AppState) (ev : Event)
  : AppState :=
  match ev with
  | CircleClick d =>
      match clickedNode d with
      | Some node => handleNodeClick (Some hierarchyData) (Some node) st
      | None => st
      end
  | SearchSelect result => handleSearchSelect (Some hierarchyData) result st
  | SearchClear => handleSearchClear st
  | ResetClick => handleReset st
  | BreadcrumbClick index =>
      match breadcrumbs st !! index with
      | Some node => handleBreadcrumbClick (Some hierarchyData) node st
      | None => st
      end
  end.

(** The circles that can be clicked are those of the layout of the current
    focus. *)
Definition Enabled (hierarchyData : HierarchyNode) (st : AppState) (ev : Event)
  : Prop :=
  match ev with
  | CircleClick d =>
      In d (descendants (layoutHierarchy hierarchyData (focusedPath st)))
  | _ => True
  end.

(** The states of the focus the application can be in while the data stay
    the same. *)
Inductive Reachable (hierarchyData : HierarchyNode) : AppState -> Prop :=
| Reachable_initial : Reachable hierarchyData (mkAppState None [])
| Reachable_step st ev :
    Reachable hierarchyData st -> Enabled hierarchyData st ev ->
    Reachable hierarchyData (handle hierarchyData st ev).

(** *** The path-to-name map built by [App.tsx] *)

(** The loop [for (const level of levels)] that registers the full name of
    a row under the key of every prefix of its levels. *)
Fixpoint recordNameLoop (ls : list (option jsstring)) (pathParts : list jsstring)
    (fullName : jsstring) (m : gmap jsstring jsstring) : gmap jsstring jsstring :=
  match ls with
  | [] => m
  | level :: rest =>
      if negb (truthy level) then m
      else
        let pathParts1 := pathParts ++ [default [] level] in
        let pathKey := join [PIPE] pathParts1 in
        recordNameLoop rest pathParts1 fullName (<[pathKey := fullName]> m)
  end.

(** [if (row.beblFullName) { ... }] *)
Definition recordFullName (m : gmap jsstring jsstring) (row : SigmaDataRow)
  : gmap jsstring jsstring :=
  if truthy (SigmaDataRow.beblFullName row)
  then recordNameLoop (levels row) [] (default [] (SigmaDataRow.beblFullName row)) m
  else m.

(** [beblFullNameMap] once every row has been seen. *)
Definition buildNameMap (rows : list SigmaDataRow) : gmap jsstring jsstring :=
  foldl recordFullName ∅ rows.

(** The tree [App.tsx] hands to the components: built from the rows with
    the name map of the same rows. *)
Definition hierarchyOf (rows : list SigmaDataRow) : HierarchyNode :=
  transformToHierarchy rows (Some (buildNameMap rows)).

(** *** The search box ([SearchFilter.tsx]) *)

Record FilterState := mkFilterState {
  searchTerm : jsstring;
  results : list SearchResult;
  isOpen : bool;
  selectedIndex : Z }.

Definition initialFilterState : FilterState := mkFilterState [] [] false 0.

(** The body of the debounced effect, run on the current search term. *)
Definition runSearch (toLowerCase : jsstring -> jsstring)
    (searchableNodes : list SearchResult) (st : FilterState) : FilterState :=
  match trim (searchTerm st) with
  | _ :: _ =>
      let filtered := searchNodes toLowerCase (searchTerm st) searchableNodes in
      mkFilterState (searchTerm st) (take 50 filtered)
        (0 <? length filtered)%nat 0
  | [] => mkFilterState (searchTerm st) [] false (selectedIndex st)
  end.

(** [onChange] of the input *)
Definition changeTerm (value : jsstring) (st : FilterState) : FilterState :=
  mkFilterState value (results st) (isOpen st) (selectedIndex st).

(** [handleClickOutside], when the click is outside the box *)
Definition closeDropdown (st : FilterState) : FilterState :=
  mkFilterState (searchTerm st) (results st) false (selectedIndex st).

(** [handleSelect]: the new state and the result handed to [onSelect]. *)
Definition handleSelect (result : SearchResult) (st : FilterState)
  : FilterState * option SearchResult :=
  (mkFilterState (SearchResult.name result) (results st) false (selectedIndex st),
   Some result).

(** [handleClear] *)
Definition handleClear (st : FilterState) : FilterState :=
  mkFilterState [] [] false (selectedIndex st).

Inductive Key := ArrowDown | ArrowUp | Enter | Escape | OtherKey.

(** [results[selectedIndex]] *)
Definition resultAt (st : FilterState) : option SearchResult :=
  if (selectedIndex st <? 0)%Z then None
  else results st !! Z.to_nat (selectedIndex st).

(** [handleKeyDown]: the new state, and the result selected if any. *)
Definition handleKeyDown (key : Key) (st : FilterState)
  : FilterState * option SearchResult :=
  if negb (isOpen st) then (st, None)
  else
    match key with
    | ArrowDown =>
        (mkFilterState (searchTerm st) (results st) (isOpen st)
           (Z.min (selectedIndex st + 1) (Z.of_nat (length (results st)) - 1)),
         None)
    | ArrowUp =>
        (mkFilterState (searchTerm st) (results st) (isOpen st)
           (Z.max (selectedIndex st - 1) 0),
         None)
    | Enter =>
        match resultAt st with
        | Some result => handleSelect result st
        | None => (st, None)
        end
    | Escape => (closeDropdown st, None)
    | OtherKey => (st, None)
    end.

(** *** The text of a label ([CirclePacking.tsx]) *)

(** [displayName]: the name, cut to [Math.floor(d.r / 3.5)] characters with
    an ellipsis when it is longer. *)
Definition displayName (d : Circle) : jsstring :=
  let maxLength := Zfloor (Circle.r d / 3.5) in
  if (maxLength <? Z.of_nat (length (Circle.name d)))%Z
  then take (Z.to_nat (maxLength - 3)) (Circle.name d) ++ lit "..."
  else Circle.name d.

(** ** Vocabulary of the further properties *)

(** [anc] are the nodes from [t] down to the parent of [n], each the parent
    of the next. *)
Inductive Chain : HierarchyNode -> list HierarchyNode -> HierarchyNode -> Prop :=
| Chain_here t : Chain t [] t
| Chain_down t c anc n :
    In c (children t) -> Chain c anc n -> Chain t (t :: anc) n.

(** [t] occurs in [s] as a substring. *)
Definition Contains (s t : jsstring) : Prop :=
  exists before after, s = before ++ t ++ after.

(** A field of the record holds the term, after lower-casing. *)
Definition fieldHolds (toLowerCase : jsstring -> jsstring) (term : jsstring)
    (field : option jsstring) : Prop :=
  exists s, field = Some s /\ s <> [] /\ Contains (toLowerCase s) term.

Definition RecordMatches (toLowerCase : jsstring -> jsstring) (term : jsstring)
    (r : SearchResult) : Prop :=
  Contains (toLowerCase (SearchResult.name r)) term
  \/ fieldHolds toLowerCase term (SearchResult.buCode r)
  \/ fieldHolds toLowerCase term (SearchResult.beblCode r)
  \/ fieldHolds toLowerCase term (SearchResult.beblFullName r)
  \/ fieldHolds toLowerCase term (SearchResult.rawLabel r).

(** The path keys of the non-empty prefixes of the effective path of a row. *)
Definition prefixKeys (row : SigmaDataRow) : list jsstring :=
  map (fun i => buildPathKey (take (i + 1) (extractPath row)))
    (seq 0 (length (extractPath row))).

(** The row has a full name and passes through the node with key [key]. *)
Definition namesKey (key : jsstring) (row : SigmaDataRow) : bool :=
  truthy (SigmaDataRow.beblFullName row) && existsb (eqPath key) (prefixKeys row).

(** The full name of the last row that names [key]. *)
Definition lastNameFor (rows : list SigmaDataRow) (key : jsstring) : option jsstring :=
  last (List.filter (namesKey key) rows) ≫= SigmaDataRow.beblFullName.

(** The fields of a node created for [level], the element [index] of [path]. *)
Definition createdFields (m : option (gmap jsstring jsstring))
    (path : list ParsedLevel) (level : ParsedLevel) (index : nat)
    (v : option Z) : Fields.t :=
  Fields.mk (ParsedLevel.name level) (Some (ParsedLevel.buCode level))
    (Some (ParsedLevel.beblCode level))
    (m ≫= (fun m => m !! buildPathKey (take (index + 1) path)))
    (Some (ParsedLevel.raw level)) v (Z.of_nat index)
    (buildPathKey (take (index + 1) path)).

(** Where the fields of an object of the store come from: the root, or a
    level of a row. *)
Definition Provenance (m : option (gmap jsstring jsstring))
    (rows : list SigmaDataRow) (f : Fields.t) : Prop :=
  f = rootFields
  \/ exists row index level v,
       In row rows /\ extractPath row !! index = Some level
       /\ f = createdFields m (extractPath row) level index v.

(** No level string of the row holds the delimiter of the path keys. *)
Definition pipeFree (row : SigmaDataRow) : Prop :=
  Forall (fun p => ~ In PIPE (ParsedLevel.raw p)) (extractPath row).

(** The rows with the same effective path as [row]. *)
Definition samePath (row row' : SigmaDataRow) : bool :=
  bool_decide (map ParsedLevel.raw (extractPath row')
               = map ParsedLevel.raw (extractPath row)).

(** Equality of path keys is decidable. *)
Definition pathEqDec (a b : jsstring) : {a = b} + {a <> b} := decide (a = b).


(** What the search box guarantees while its list is open. *)
Definition FilterInvariant (st : FilterState) : Prop :=
  (length (results st) <= 50)%nat
  /\ (isOpen st = true ->
      (0 <= selectedIndex st < Z.of_nat (length (results st)))%Z).

(** What the focus handlers guarantee: the focus names a node with children,
    and the breadcrumbs are the nodes from the tree down to that node, those
    of negative level left out. *)
Definition FocusInvariant (tree : HierarchyNode) (st : AppState) : Prop :=
  match focusedPath st with
  | None => breadcrumbs st = []
  | Some p =>
      exists anc n,
        findNode tree p = Some n /\ children n <> []
        /\ Chain tree anc n
        /\ breadcrumbs st = List.filter nonRoot (anc ++ [n])
  end.

(** * Verification *)

(** ** Runs of a character class *)

Section Runs.
Context {A : Type}.
Variable p : A -> bool.

Lemma takeWhile_dropWhile (l : list A) : takeWhile p l ++ dropWhile p l = l.
Proof.
  induction l as [|x l IH]; simpl; [done|].
  destruct (p x); simpl; [by rewrite IH | done].
Qed.

Lemma takeWhile_forallb (l : list A) : forallb p (takeWhile p l) = true.
Proof.
  induction l as [|x l IH]; simpl; [done|].
  destruct (p x) eqn:E; simpl; [by rewrite E | done].
Qed.

Lemma run_stops (t : list A) (x : A) (rest : list A) :
  forallb p t = true -> p x = false ->
  takeWhile p (t ++ x :: rest) = t /\ dropWhile p (t ++ x :: rest) = x :: rest.
Proof.
  intros Ht Hx. induction t as [|y t IH]; simpl in *.
  - by rewrite Hx.
  - apply andb_prop in Ht as [-> Ht]. destruct (IH Ht) as [-> ->]. done.
Qed.

Lemma run_to_end (t : list A) :
  forallb p t = true -> takeWhile p t = t /\ dropWhile p t = [].
Proof.
  intros Ht. induction t as [|y t IH]; simpl in *; [done|].
  apply andb_prop in Ht as [-> Ht]. destruct (IH Ht) as [-> ->]. done.
Qed.

Lemma dropWhile_id (l : list A) :
  match l with [] => True | x :: _ => p x = false end -> dropWhile p l = l.
Proof. destruct l as [|x l]; simpl; [done|]. by intros ->. Qed.
End Runs.

(** ** The backtracking matcher *)

Section MatcherFacts.
Context {Res : Type}.
Variable c : N -> bool.
Variable k : jsstring -> jsstring -> option Res.

Lemma greedy_commit (s taken : jsstring) :
  Rejects c k -> greedy c k taken s = k (taken ++ takeWhile c s) (dropWhile c s).
Proof.
  intros Hk. revert taken.
  induction s as [|x s IH]; intros taken; simpl.
  - by rewrite app_nil_r.
  - destruct (c x) eqn:Hx.
    + rewrite IH, <- app_assoc. simpl.
      destruct (k (taken ++ x :: takeWhile c s) (dropWhile c s)); [done|].
      by apply Hk.
    + by rewrite app_nil_r.
Qed.

Lemma greedy_Some (s taken : jsstring) (r : Res) :
  greedy c k taken s = Some r ->
  exists t rest, s = t ++ rest /\ forallb c t = true /\ k (taken ++ t) rest = Some r.
Proof.
  revert taken. induction s as [|x s IH]; intros taken; simpl.
  - intros H. exists [], []. rewrite (app_nil_r taken). auto.
  - destruct (c x) eqn:Hx.
    + destruct (greedy c k (taken ++ [x]) s) eqn:Hg.
      * intros [= ->]. destruct (IH _ Hg) as (t & rest & -> & Ht & Hr).
        exists (x :: t), rest. simpl. rewrite Hx, Ht.
        rewrite <- app_assoc in Hr. auto.
      * intros H. exists [], (x :: s). rewrite (app_nil_r taken). auto.
    + intros H. exists [], (x :: s). rewrite (app_nil_r taken). auto.
Qed.

Lemma greedy_run (t rest taken : jsstring) :
  Rejects c k -> forallb c t = true ->
  match rest with [] => True | x :: _ => c x = false end ->
  greedy c k taken (t ++ rest) = k (taken ++ t) rest.
Proof.
  intros Hk Ht Hrest. rewrite greedy_commit by done.
  destruct rest as [|x rest].
  - rewrite app_nil_r. by destruct (run_to_end c t Ht) as [-> ->].
  - by destruct (run_stops c t x rest Ht Hrest) as [-> ->].
Qed.

Lemma lazy_Some (s taken : jsstring) (r : Res) :
  lazy c k taken s = Some r ->
  exists t rest,
    s = t ++ rest /\ t <> [] /\ forallb c t = true /\ k (taken ++ t) rest = Some r
    /\ forall t' rest', s = t' ++ rest' -> t' <> [] ->
         (length t' < length t)%nat -> k (taken ++ t') rest' = None.
Proof.
  revert taken. induction s as [|x s IH]; intros taken; simpl; [done|].
  destruct (c x) eqn:Hx; [|done].
  destruct (k (taken ++ [x]) s) eqn:Hk.
  - intros [= ->]. exists [x], s. simpl. rewrite Hx.
    repeat split; try done.
    intros t' rest' _ Hne Hlen. destruct t'; simpl in *; [done | lia].
  - intros H. destruct (IH _ H) as (t & rest & -> & Hne & Ht & Hr & Hmin).
    exists (x :: t), rest. simpl. rewrite Hx, Ht.
    rewrite <- app_assoc in Hr. repeat split; try done.
    intros t' rest' Heq Hne' Hlen.
    destruct t' as [|y t']; [done|]. simpl in Heq. injection Heq as Hxy Heq. subst y.
    destruct t' as [|z t'].
    + simpl in Heq. subst rest'. exact Hk.
    + specialize (Hmin (z :: t') rest' Heq). rewrite <- app_assoc in Hmin.
      apply Hmin; [done | simpl in *; lia].
Qed.

Lemma lazy_None (s taken : jsstring) :
  lazy c k taken s = None ->
  forall t rest, s = t ++ rest -> t <> [] -> forallb c t = true ->
    k (taken ++ t) rest = None.
Proof.
  revert taken. induction s as [|x s IH]; intros taken; simpl.
  - intros _ t rest Heq Hne. by destruct t.
  - intros H t rest Heq Hne Ht.
    destruct t as [|y t]; [done|]. simpl in Heq. injection Heq as Hxy Heq. subst y.
    simpl in Ht. apply andb_prop in Ht as [Hx Ht]. rewrite Hx in H.
    destruct (k (taken ++ [x]) s) eqn:Hk; [done|].
    destruct t as [|z t].
    + simpl in Heq. by subst rest.
    + specialize (IH _ H (z :: t) rest Heq). rewrite <- app_assoc in IH.
      by apply IH.
Qed.
End MatcherFacts.

(** ** Matching a pattern atom by atom *)

Lemma addGroup_Some (a : atom) (taken : jsstring) (r : option (list jsstring))
    (g : list jsstring) :
  addGroup a taken r = Some g ->
  exists g', r = Some g' /\ g = if captured a then taken :: g' else g'.
Proof. destruct r as [g'|]; simpl; [|done]. intros [= <-]. eauto. Qed.

Lemma match_end_inv (s : jsstring) (g : list jsstring) :
  matchAnchored [] s = Some g -> s = [] /\ g = [].
Proof. destruct s; simpl; [|done]. by intros [= <-]. Qed.

Lemma match_end_rejects (x : N) (rest : jsstring) :
  matchAnchored [] (x :: rest) = None.
Proof. done. Qed.

Lemma match_once (a : atom) (p : list atom) (x : N) (s : jsstring) :
  quant a = Once -> cls a x = true ->
  matchAnchored (a :: p) (x :: s) = addGroup a [x] (matchAnchored p s).
Proof. intros Hq Hx. simpl. rewrite Hq. simpl. by rewrite Hx. Qed.

Lemma match_once_rejects (a : atom) (p : list atom) (x : N) (s : jsstring) :
  quant a = Once -> cls a x = false -> matchAnchored (a :: p) (x :: s) = None.
Proof. intros Hq Hx. simpl. rewrite Hq. simpl. by rewrite Hx. Qed.

Lemma match_once_inv (a : atom) (p : list atom) (s : jsstring) (g : list jsstring) :
  quant a = Once -> matchAnchored (a :: p) s = Some g ->
  exists x s' g', s = x :: s' /\ cls a x = true /\ matchAnchored p s' = Some g'
    /\ g = if captured a then [x] :: g' else g'.
Proof.
  intros Hq. simpl. rewrite Hq. simpl. destruct s as [|x s]; [done|].
  destruct (cls a x) eqn:Hx; [|done].
  intros H. apply addGroup_Some in H as (g' & Hg' & ->). eauto 10.
Qed.

Lemma addGroup_rejects (a : atom) (p : list atom) :
  (forall x rest, cls a x = true -> matchAnchored p (x :: rest) = None) ->
  Rejects (cls a) (fun taken rest => addGroup a taken (matchAnchored p rest)).
Proof. intros H t x rest Hx. by rewrite H. Qed.

Lemma match_star_run (a : atom) (p : list atom) (t rest : jsstring) :
  quant a = GreedyStar ->
  (forall x rest, cls a x = true -> matchAnchored p (x :: rest) = None) ->
  forallb (cls a) t = true ->
  match rest with [] => True | x :: _ => cls a x = false end ->
  matchAnchored (a :: p) (t ++ rest) = addGroup a t (matchAnchored p rest).
Proof.
  intros Hq Hrej Ht Hrest. simpl. rewrite Hq. simpl.
  by rewrite greedy_run; [| apply addGroup_rejects | |].
Qed.

Lemma match_plus_run (a : atom) (p : list atom) (t rest : jsstring) :
  quant a = GreedyPlus ->
  (forall x rest, cls a x = true -> matchAnchored p (x :: rest) = None) ->
  t <> [] -> forallb (cls a) t = true ->
  match rest with [] => True | x :: _ => cls a x = false end ->
  matchAnchored (a :: p) (t ++ rest) = addGroup a t (matchAnchored p rest).
Proof.
  intros Hq Hrej Hne Ht Hrest. simpl. rewrite Hq. simpl.
  destruct t as [|x t]; [done|]. simpl in *.
  apply andb_prop in Ht as [-> Ht].
  by rewrite greedy_run; [| apply addGroup_rejects | |].
Qed.

Lemma match_greedy_inv (a : atom) (p : list atom) (s : jsstring) (g : list jsstring) :
  quant a = GreedyStar \/ quant a = GreedyPlus ->
  matchAnchored (a :: p) s = Some g ->
  exists t rest g', s = t ++ rest /\ forallb (cls a) t = true
    /\ (quant a = GreedyPlus -> t <> [])
    /\ matchAnchored p rest = Some g'
    /\ g = if captured a then t :: g' else g'.
Proof.
  intros [Hq|Hq]; simpl; rewrite Hq; simpl.
  - intros H. apply greedy_Some in H as (t & rest & -> & Ht & H).
    apply addGroup_Some in H as (g' & Hg' & ->).
    exists t, rest, g'. repeat split; try done.
  - destruct s as [|x s]; [done|]. destruct (cls a x) eqn:Hx; [|done].
    intros H. apply greedy_Some in H as (t & rest & -> & Ht & H).
    apply addGroup_Some in H as (g' & Hg' & ->).
    exists (x :: t), rest, g'. simpl. rewrite Hx, Ht. repeat split; try done.
Qed.

(** ** The level pattern *)

Lemma isChar_true (ch x : N) : isChar ch x = true -> x = ch.
Proof. unfold isChar. apply N.eqb_eq. Qed.

Lemma whitespace_not_lparen (x : N) :
  isWhiteSpace x = true -> isChar LPAREN x = false.
Proof.
  intros Hx. destruct (isChar LPAREN x) eqn:E; [|done].
  apply isChar_true in E. subst x. discriminate Hx.
Qed.

Lemma notChar_not_isChar (ch x : N) : notChar ch x = true -> isChar ch x = false.
Proof. unfold notChar, isChar. by destruct (x =? ch). Qed.

Lemma tail_complete (ws code sfx : jsstring) :
  forallb isWhiteSpace ws = true ->
  code <> [] -> forallb (notChar RPAREN) code = true ->
  sfx <> [] -> forallb isUpperOrDigit sfx = true ->
  matchAnchored (tl levelRegex) (ws ++ LPAREN :: code ++ RPAREN :: HYPHEN :: sfx)
  = Some [code; sfx].
Proof.
  intros Hws Hc1 Hc2 Hs1 Hs2. cbn [tl levelRegex].
  rewrite match_star_run; [| done | | done | done].
  2:{ intros x rest Hx. apply match_once_rejects; [done|].
      by apply whitespace_not_lparen. }
  rewrite match_once by done.
  rewrite match_plus_run; [| done | | done | done | done].
  2:{ intros x rest Hx. apply match_once_rejects; [done|].
      by apply notChar_not_isChar. }
  rewrite !match_once by done.
  pose proof (match_plus_run (Atom isUpperOrDigit GreedyPlus true) [] sfx []) as E.
  rewrite app_nil_r in E. by rewrite E.
Qed.

Lemma tail_sound (rest : jsstring) (g : list jsstring) :
  matchAnchored (tl levelRegex) rest = Some g ->
  exists ws code sfx,
    g = [code; sfx]
    /\ rest = ws ++ LPAREN :: code ++ RPAREN :: HYPHEN :: sfx
    /\ forallb isWhiteSpace ws = true
    /\ code <> [] /\ forallb (notChar RPAREN) code = true
    /\ sfx <> [] /\ forallb isUpperOrDigit sfx = true.
Proof.
  cbn [tl levelRegex]. intros H.
  apply match_greedy_inv in H as (ws & r1 & g1 & -> & Hws & _ & H & ->); [|by left].
  apply match_once_inv in H as (x1 & r2 & g2 & -> & Hx1 & H & ->); [|done].
  apply match_greedy_inv in H as (code & r3 & g3 & -> & Hcode & Hne & H & ->); [|by right].
  apply match_once_inv in H as (x2 & r4 & g4 & -> & Hx2 & H & ->); [|done].
  apply match_once_inv in H as (x3 & r5 & g5 & -> & Hx3 & H & ->); [|done].
  apply match_greedy_inv in H as (sfx & r6 & g6 & -> & Hsfx & Hne' & H & ->); [|by right].
  apply match_end_inv in H as [-> ->].
  cbn [cls captured quant] in *.
  apply isChar_true in Hx1, Hx2, Hx3. subst x1 x2 x3.
  exists ws, code, sfx. rewrite app_nil_r. repeat split; auto.
Qed.

Lemma level_match_sound (s : jsstring) (g : list jsstring) :
  matchAnchored levelRegex s = Some g ->
  exists nm ws code sfx,
    g = [nm; code; sfx] /\ LevelFormat s nm ws code sfx /\ ShortestName s nm.
Proof.
  intros H. change levelRegex with (Atom dot LazyPlus true :: tl levelRegex) in H.
  cbn [matchAnchored cls quant quantified] in H.
  apply lazy_Some in H as (nm & rest & -> & Hnm & Hdot & H & Hmin).
  apply addGroup_Some in H as (g' & H & ->).
  apply tail_sound in H as (ws & code & sfx & -> & -> & Hws & Hc1 & Hc2 & Hs1 & Hs2).
  exists nm, ws, code, sfx. split; [done|]. split.
  - by repeat split.
  - intros nm' ws' code' sfx' (Heq & Hnm' & _ & Hws' & Hc1' & Hc2' & Hs1' & Hs2').
    destruct (le_lt_dec (length nm) (length nm')) as [|Hlt]; [done|].
    specialize (Hmin nm' _ Heq Hnm' Hlt). cbn beta in Hmin.
    by rewrite tail_complete in Hmin.
Qed.

Lemma level_match_defined (s : jsstring) :
  MatchesLevelPattern s -> matchAnchored levelRegex s <> None.
Proof.
  intros (nm & ws & code & sfx & Heq & Hnm & Hdot & Hws & Hc1 & Hc2 & Hs1 & Hs2) H.
  change levelRegex with (Atom dot LazyPlus true :: tl levelRegex) in H.
  cbn [matchAnchored cls quant quantified] in H.
  pose proof (lazy_None _ _ _ _ H nm _ Heq Hnm Hdot) as Hk. cbn beta in Hk.
  by rewrite tail_complete in Hk.
Qed.

Lemma level_match_complete (s nm ws code sfx : jsstring) :
  LevelFormat s nm ws code sfx -> ShortestName s nm ->
  matchAnchored levelRegex s = Some [nm; code; sfx].
Proof.
  intros HF Hshort.
  destruct (matchAnchored levelRegex s) as [g|] eqn:Hm.
  2:{ exfalso. apply (level_match_defined s); [|done]. by exists nm, ws, code, sfx. }
  apply level_match_sound in Hm as (nm0 & ws0 & code0 & sfx0 & -> & HF0 & Hshort0).
  pose proof (Hshort _ _ _ _ HF0) as H1. pose proof (Hshort0 _ _ _ _ HF) as H2.
  destruct HF as (Heq & _ & _ & Hws & Hc1 & Hc2 & Hs1 & Hs2).
  destruct HF0 as (Heq0 & _ & _ & Hws0 & Hc10 & Hc20 & Hs10 & Hs20).
  rewrite Heq in Heq0. apply app_inj_1 in Heq0 as [-> Hrest]; [|lia].
  pose proof (tail_complete ws code sfx Hws Hc1 Hc2 Hs1 Hs2) as T.
  rewrite Hrest, tail_complete in T by done. by injection T as -> ->.
Qed.

Lemma level_match_none (s : jsstring) :
  ~ MatchesLevelPattern s -> matchAnchored levelRegex s = None.
Proof.
  intros Hno. destruct (matchAnchored levelRegex s) as [g|] eqn:Hm; [|done].
  exfalso. apply Hno.
  apply level_match_sound in Hm as (nm & ws & code & sfx & _ & HF & _).
  by exists nm, ws, code, sfx.
Qed.

(** ** Trimming *)

Lemma dropWhile_all {A} (p : A -> bool) (u v : list A) :
  forallb p u = true -> dropWhile p (u ++ v) = dropWhile p v.
Proof.
  induction u as [|x u IH]; simpl; [done|].
  intros H. apply andb_prop in H as [-> H]. by apply IH.
Qed.

Lemma dropWhile_app_stop {A} (p : A -> bool) (u v : list A) :
  dropWhile p u <> [] -> dropWhile p (u ++ v) = dropWhile p u ++ v.
Proof.
  induction u as [|x u IH]; simpl; [done|].
  destruct (p x); [apply IH | done].
Qed.

Lemma forallb_rev {A} (p : A -> bool) (l : list A) :
  forallb p l = true -> forallb p (rev l) = true.
Proof.
  rewrite !forallb_forall. intros H x Hx. apply H. by apply in_rev.
Qed.

Lemma dropWhile_nil_all {A} (p : A -> bool) (l : list A) :
  dropWhile p l = [] -> forallb p l = true.
Proof.
  induction l as [|x l IH]; simpl; [done|].
  destruct (p x); [apply IH | done].
Qed.

Lemma trim_app_whitespace (a w : jsstring) :
  forallb isWhiteSpace w = true -> trim (a ++ w) = trim a.
Proof.
  intros Hw. unfold trim, trimStart, trimEnd.
  destruct (dropWhile isWhiteSpace a) as [|x b] eqn:Ha.
  - apply dropWhile_nil_all in Ha. rewrite dropWhile_all by done.
    by destruct (run_to_end isWhiteSpace w Hw) as [_ ->].
  - rewrite dropWhile_app_stop by by rewrite Ha.
    rewrite Ha, rev_app_distr. rewrite dropWhile_all; [done|].
    by apply forallb_rev.
Qed.

Lemma upperOrDigit_not_whitespace (x : N) :
  isUpperOrDigit x = true -> isWhiteSpace x = false.
Proof.
  unfold isUpperOrDigit, isWhiteSpace. intros H.
  assert ((65 <= x <= 90) \/ (48 <= x <= 57)) as Hx.
  { apply orb_prop in H as [H|H]; apply andb_prop in H as [H1 H2];
      apply N.leb_le in H1, H2; lia. }
  repeat (apply orb_false_intro);
    try (apply N.eqb_neq; lia).
  apply andb_false_iff. left. apply N.leb_gt. lia.
Qed.

Lemma trim_upperOrDigit (s : jsstring) :
  forallb isUpperOrDigit s = true -> trim s = s.
Proof.
  intros Hs. unfold trim, trimStart, trimEnd.
  assert (forall l : jsstring, forallb isUpperOrDigit l = true ->
            dropWhile isWhiteSpace l = l) as Hid.
  { intros l Hl. apply dropWhile_id. destruct l as [|x l]; [done|].
    simpl in Hl. apply andb_prop in Hl as [Hx _].
    by apply upperOrDigit_not_whitespace. }
  rewrite (Hid s Hs), Hid by by apply forallb_rev.
  apply rev_involutive.
Qed.

(** ** LevelParser: results *)

Lemma parseLevel_matched (s nm code sfx : jsstring) :
  matchAnchored levelRegex s = Some [nm; code; sfx] -> s <> [] ->
  parseLevel (Some s) = Some (ParsedLevel.mk (trim nm) (trim code) (trim sfx) s).
Proof.
  intros Hm Hs. unfold parseLevel, jsMatch. rewrite Hm.
  by destruct s.
Qed.

Lemma parseLevel_unmatched (s : jsstring) :
  matchAnchored levelRegex s = None -> s <> [] ->
  parseLevel (Some s) = Some (ParsedLevel.mk (trim s) [] [] s).
Proof.
  intros Hm Hs. unfold parseLevel, jsMatch. rewrite Hm.
  by destruct s.
Qed.

Lemma parseLevel_shortest (s nm ws code sfx : jsstring) :
  LevelFormat s nm ws code sfx -> ShortestName s nm ->
  parseLevel (Some s) = Some (ParsedLevel.mk (trim nm) (trim code) sfx s).
Proof.
  intros HF Hshort.
  rewrite (parseLevel_matched s nm code sfx).
  - destruct HF as (_ & _ & _ & _ & _ & _ & _ & Hs2).
    by rewrite (trim_upperOrDigit sfx).
  - by eapply level_match_complete.
  - destruct HF as (-> & Hnm & _). by destruct nm.
Qed.

Lemma strip_trailing_whitespace (t : jsstring) :
  exists t1 w1,
    t = t1 ++ w1 /\ forallb isWhiteSpace w1 = true
    /\ (t1 = [] \/ exists t0 y, t1 = t0 ++ [y] /\ isWhiteSpace y = false).
Proof.
  induction t as [|y t IH] using rev_ind.
  - exists [], []. auto.
  - destruct (isWhiteSpace y) eqn:Hy.
    + destruct IH as (t1 & w1 & -> & Hw & Ht1).
      exists t1, (w1 ++ [y]). rewrite app_assoc. split; [done|]. split; [|done].
      rewrite forallb_app, Hw. simpl. by rewrite Hy.
    + exists (t ++ [y]), []. rewrite app_nil_r. eauto 10.
Qed.

(** A name whose characters after the first contain no opening parenthesis
    and which does not end in white space is the shortest name of its
    string. *)
Lemma shortest_without_paren (s t0 ws code sfx : jsstring) (a b : N) :
  LevelFormat s (a :: t0 ++ [b]) ws code sfx ->
  forallb (notChar LPAREN) (t0 ++ [b]) = true ->
  isWhiteSpace b = false ->
  ShortestName s (a :: t0 ++ [b]).
Proof.
  intros (Heq & _) Hparen Hb nm' ws' code' sfx' (Heq' & Hnm' & _ & Hws' & _).
  destruct (le_lt_dec (length (a :: t0 ++ [b])) (length nm')) as [|Hlt]; [done|].
  exfalso. rewrite Heq in Heq'. symmetry in Heq'.
  apply app_eq_app in Heq' as (l & [[E1 E2]|[E1 E2]]).
  { rewrite E1, length_app in Hlt. lia. }
  destruct nm' as [|a' n']; [done|].
  simpl in E1. injection E1 as <- E1.
  assert (l <> []) as Hl.
  { intros ->. rewrite app_nil_r in E1. subst n'. simpl in Hlt. lia. }
  destruct (exists_last Hl) as (z0 & b' & ->).
  rewrite app_assoc in E1. apply app_inj_tail in E1 as [E1 <-].
  subst t0. rewrite <- !app_assoc in Hparen.
  rewrite forallb_app in Hparen. apply andb_prop in Hparen as [_ Hparen].
  apply app_eq_app in E2 as (l & [[E3 E4]|[E3 E4]]).
  - rewrite E3, !forallb_app in Hws'. simpl in Hws'.
    rewrite Hb in Hws'. rewrite !andb_false_r in Hws'.
    by rewrite andb_false_l in Hws'.
  - destruct l as [|p l].
    + rewrite app_nil_r in E3. rewrite <- E3, forallb_app in Hws'.
      simpl in Hws'. rewrite Hb in Hws'. by rewrite andb_false_r in Hws'.
    + simpl in E4. injection E4 as <- E4.
      rewrite E3, forallb_app in Hparen. simpl in Hparen.
      by rewrite andb_false_r in Hparen.
Qed.

Lemma levelFormat_move_whitespace (s nm1 w1 ws code sfx : jsstring) :
  LevelFormat s (nm1 ++ w1) ws code sfx -> nm1 <> [] ->
  forallb isWhiteSpace w1 = true ->
  LevelFormat s nm1 (w1 ++ ws) code sfx.
Proof.
  intros (-> & _ & Hdot & Hws & Hrest) Hnm Hw1.
  rewrite forallb_app in Hdot. apply andb_prop in Hdot as [Hdot _].
  repeat split; try done.
  - by rewrite <- !app_assoc.
  - by rewrite forallb_app, Hw1, Hws.
  - apply Hrest.
  - apply Hrest.
  - apply Hrest.
  - apply Hrest.
Qed.

(** C2 (as amended).  For every input made of a name, optional white space,
    a parenthesised code, a hyphen and a suffix -- the name non-empty,
    without line terminators and without an opening parenthesis after its
    first character, the code non-empty and without a closing parenthesis,
    the suffix one or more capital letters or digits -- [parseLevel]
    returns the trimmed name, the trimmed code, the suffix, and the input
    itself as [raw]. *)
Theorem parseLevel_level_format (s nm ws code sfx : jsstring) :
  LevelFormat s nm ws code sfx ->
  forallb (notChar LPAREN) (tl nm) = true ->
  parseLevel (Some s) = Some (ParsedLevel.mk (trim nm) (trim code) sfx s).
Proof.
  intros HF Hparen.
  assert (nm <> []) as Hnm by apply HF.
  destruct nm as [|a t]; [done|]. simpl in Hparen.
  destruct (strip_trailing_whitespace t) as (t1 & w1 & -> & Hw1 & Ht1).
  change (a :: t1 ++ w1) with ((a :: t1) ++ w1) in *.
  rewrite trim_app_whitespace by done.
  apply levelFormat_move_whitespace in HF; [|done..].
  apply (parseLevel_shortest _ _ _ _ _ HF).
  destruct Ht1 as [-> | (t0 & y & -> & Hy)].
  - intros nm' ws' code' sfx' (_ & Hnm' & _). destruct nm'; [done|]. simpl. lia.
  - eapply shortest_without_paren; [exact HF| |done].
    rewrite forallb_app in Hparen. by apply andb_prop in Hparen as [-> _].
Qed.

(** The theorem at the example of the source's documentation. *)
Lemma parseLevel_level_format_witness :
  parseLevel (Some (lit "Finity Group, LLC (06921)-WN8"))
  = Some (ParsedLevel.mk (lit "Finity Group, LLC") (lit "06921") (lit "WN8")
            (lit "Finity Group, LLC (06921)-WN8")).
Proof.
  apply (parseLevel_level_format (lit "Finity Group, LLC (06921)-WN8")
           (lit "Finity Group, LLC") (lit " ") (lit "06921") (lit "WN8")).
  - unfold LevelFormat. repeat split; try discriminate; reflexivity.
  - reflexivity.
Defined.

(** C2 (as stated) fails: a lower-case suffix has the form
    "Name (Code)-Suffix" of the specification, yet the parser takes the
    fallback path. *)
Lemma parseLevel_lowercase_suffix_counterexample :
  SpecLevelForm (lit "Foo (9)-abc") (lit "Foo") (lit "9") (lit "abc")
  /\ parseLevel (Some (lit "Foo (9)-abc"))
     = Some (ParsedLevel.mk (lit "Foo (9)-abc") [] [] (lit "Foo (9)-abc"))
  /\ parseLevel (Some (lit "Foo (9)-abc"))
     <> Some (ParsedLevel.mk (trim (lit "Foo")) (lit "9") (lit "abc")
                (lit "Foo (9)-abc")).
Proof.
  split; [|split].
  - unfold SpecLevelForm. repeat split; try discriminate; reflexivity.
  - reflexivity.
  - discriminate.
Qed.

(** Two more traits of the pattern: the code is trimmed as well, and the
    name stops at the first opening parenthesis from which the rest of the
    string matches. *)
Example parseLevel_trims_code :
  parseLevel (Some (lit "Foo ( 9 )-X"))
  = Some (ParsedLevel.mk (lit "Foo") (lit "9") (lit "X") (lit "Foo ( 9 )-X")).
Proof. reflexivity. Qed.

Example parseLevel_lazy_name :
  parseLevel (Some (lit "A (b (c)-X"))
  = Some (ParsedLevel.mk (lit "A") (lit "b (c") (lit "X") (lit "A (b (c)-X")).
Proof. reflexivity. Qed.

(** C3.  An absent or empty input gives no result.  A non-empty input never
    gives [null]; when it does not match the level pattern the result is
    the fallback: the trimmed input as name, empty codes, and the input
    itself as [raw].  In particular "Foo (9)-" takes the fallback. *)
Theorem parseLevel_fallback :
  parseLevel None = None
  /\ parseLevel (Some []) = None
  /\ (forall s : jsstring, s <> [] -> parseLevel (Some s) <> None)
  /\ (forall s : jsstring, s <> [] -> ~ MatchesLevelPattern s ->
        parseLevel (Some s) = Some (ParsedLevel.mk (trim s) [] [] s))
  /\ parseLevel (Some (lit "Foo (9)-"))
     = Some (ParsedLevel.mk (lit "Foo (9)-") [] [] (lit "Foo (9)-")).
Proof.
  repeat split.
  - intros s Hs. unfold parseLevel. destruct s; [done|].
    by destruct (jsMatch levelRegex _).
  - intros s Hs Hno. apply parseLevel_unmatched; [|done].
    by apply level_match_none.
Qed.

(** The fallback clause at a string that lacks the suffix. *)
Lemma parseLevel_fallback_witness :
  parseLevel (Some (lit "Foo (9)-"))
  = Some (ParsedLevel.mk (trim (lit "Foo (9)-")) [] [] (lit "Foo (9)-")).
Proof.
  destruct parseLevel_fallback as (_ & _ & _ & H & _).
  apply H.
  - discriminate.
  - intros Hm. apply level_match_defined in Hm. apply Hm. reflexivity.
Defined.

(** ** Trees *)

(** Induction on a tree, the hypothesis holding for every child. *)
Lemma HierarchyNode_ind (P : HierarchyNode -> Prop) :
  (forall f cs, Forall P cs -> P (Node f cs)) -> forall t, P t.
Proof.
  intros H. fix IH 1. intros [f cs]. apply H.
  induction cs as [|c cs IHcs]; constructor; [apply IH | exact IHcs].
Qed.

Lemma sumZ_app (l1 l2 : list Z) : sumZ (l1 ++ l2) = (sumZ l1 + sumZ l2)%Z.
Proof. induction l1 as [|x l1 IH]; simpl; [done|]. rewrite IH. lia. Qed.

Lemma subtreeWeight_node (f : Fields.t) (cs : list HierarchyNode) :
  subtreeWeight (Node f cs)
  = (orZero (Fields.value f) + sumZ (map subtreeWeight cs))%Z.
Proof.
  unfold subtreeWeight. simpl. f_equal.
  induction cs as [|c cs IH]; simpl; [done|].
  by rewrite map_app, sumZ_app, IH.
Qed.

Lemma accumulate_path (mv : Z) (f : Fields.t) :
  Fields.path (accumulate mv f) = Fields.path f.
Proof. unfold accumulate. by destruct (Fields.value f). Qed.

Lemma accumulate_value (mv : Z) (f : Fields.t) :
  orZero (Fields.value (accumulate mv f)) = (orZero (Fields.value f) + mv)%Z.
Proof. unfold accumulate. by destruct (Fields.value f). Qed.

Lemma subtreeWeight_graft (key : jsstring) (f : Fields.t) (t : HierarchyNode) :
  subtreeWeight (graft key f t)
  = (subtreeWeight t + Z.of_nat (occurrences key t) * orZero (Fields.value f))%Z.
Proof.
  induction t as [g cs IH] using HierarchyNode_ind.
  simpl. rewrite !subtreeWeight_node. cbn [fields children].
  rewrite map_app, sumZ_app.
  assert (sumZ (map subtreeWeight (map (graft key f) cs))
          = (sumZ (map subtreeWeight cs)
             + Z.of_nat (list_sum (map (occurrences key) cs))
               * orZero (Fields.value f))%Z) as ->.
  { induction IH as [|c cs Hc _ IHcs]; simpl; [done|].
    rewrite Hc, IHcs. lia. }
  destruct (eqPath (Fields.path g) key); simpl.
  - rewrite subtreeWeight_node. simpl. lia.
  - lia.
Qed.

Lemma occurrences_graft (key key' : jsstring) (f : Fields.t) (t : HierarchyNode) :
  occurrences key' (graft key f t)
  = (occurrences key' t
     + if eqPath (Fields.path f) key' then occurrences key t else 0)%nat.
Proof.
  induction t as [g cs IH] using HierarchyNode_ind.
  simpl. rewrite map_app, list_sum_app.
  assert (list_sum (map (occurrences key') (map (graft key f) cs))
          = (list_sum (map (occurrences key') cs)
             + if eqPath (Fields.path f) key'
               then list_sum (map (occurrences key) cs) else 0)%nat) as ->.
  { induction IH as [|c cs Hc _ IHcs]; simpl.
    - by destruct (eqPath _ _).
    - rewrite Hc, IHcs. destruct (eqPath (Fields.path f) key'); lia. }
  destruct (eqPath (Fields.path g) key); simpl;
    destruct (eqPath (Fields.path f) key'); lia.
Qed.

Lemma subtreeWeight_bump (key : jsstring) (mv : Z) (t : HierarchyNode) :
  subtreeWeight (bump key mv t)
  = (subtreeWeight t + Z.of_nat (occurrences key t) * mv)%Z.
Proof.
  induction t as [g cs IH] using HierarchyNode_ind.
  simpl. rewrite !subtreeWeight_node.
  assert (sumZ (map subtreeWeight (map (bump key mv) cs))
          = (sumZ (map subtreeWeight cs)
             + Z.of_nat (list_sum (map (occurrences key) cs)) * mv)%Z) as ->.
  { induction IH as [|c cs Hc _ IHcs]; simpl; [done|].
    rewrite Hc, IHcs. lia. }
  destruct (eqPath (Fields.path g) key); simpl.
  - rewrite accumulate_value. lia.
  - lia.
Qed.

Lemma occurrences_bump (key key' : jsstring) (mv : Z) (t : HierarchyNode) :
  occurrences key' (bump key mv t) = occurrences key' t.
Proof.
  induction t as [g cs IH] using HierarchyNode_ind.
  simpl.
  assert (map (occurrences key') (map (bump key mv) cs)
          = map (occurrences key') cs) as ->.
  { induction IH as [|c cs Hc _ IHcs]; simpl; [done|]. by rewrite Hc, IHcs. }
  destruct (eqPath (Fields.path g) key); [|done].
  by rewrite accumulate_path.
Qed.

(** ** The store as a tree *)

Lemma represents_inv (h : Store) (ref : nat) (t : HierarchyNode) :
  represents h ref t ->
  exists o, h !! ref = Some o /\ fields t = ofields o
    /\ Forall2 (represents h) (ochildren o) (children t).
Proof. intros H. inversion H; subst. eauto. Qed.

Lemma Forall2_represents_map (h h' : Store) (g : HierarchyNode -> HierarchyNode)
    (refs : list nat) (ts : list HierarchyNode) :
  Forall (fun t => forall ref, represents h ref t -> represents h' ref (g t)) ts ->
  Forall2 (represents h) refs ts ->
  Forall2 (represents h') refs (map g ts).
Proof.
  intros IH H. induction H as [|ref t refs ts Ht _ IHts]; simpl; [constructor|].
  inversion IH; subst. constructor; auto.
Qed.

Lemma lookup_pushed (h : Store) (p ref : nat) (o x : NodeObj) :
  h !! ref = Some o ->
  (alter (pushChild (length h)) p h ++ [x]) !! ref
  = Some (if decide (p = ref) then pushChild (length h) o else o).
Proof.
  intros Hlook. rewrite lookup_app_l.
  2:{ rewrite length_alter. by eapply lookup_lt_Some. }
  rewrite list_lookup_alter. destruct (decide (p = ref)) as [->|]; by rewrite Hlook.
Qed.

Lemma lookup_pushed_new (h : Store) (p : nat) (x : NodeObj) :
  (alter (pushChild (length h)) p h ++ [x]) !! length h = Some x.
Proof.
  rewrite lookup_app_r; rewrite length_alter; [|done].
  by rewrite Nat.sub_diag.
Qed.

Lemma represents_graft (h : Store) (p : nat) (op : NodeObj) (f : Fields.t)
    (t : HierarchyNode) :
  h !! p = Some op ->
  (forall r o, h !! r = Some o ->
     Fields.path (ofields o) = Fields.path (ofields op) -> r = p) ->
  forall ref, represents h ref t ->
    represents (alter (pushChild (length h)) p h ++ [Obj f []]) ref
      (graft (Fields.path (ofields op)) f t).
Proof.
  intros Hp Hinj.
  induction t as [g cs IH] using HierarchyNode_ind. intros ref Hrep.
  apply represents_inv in Hrep as (o & Hlook & Hg & Hkids). simpl in Hg, Hkids.
  subst g. simpl.
  pose proof (Forall2_represents_map _ _ _ _ _ IH Hkids) as Hkids'.
  pose proof (lookup_pushed h p ref o (Obj f []) Hlook) as Hlook'.
  destruct (decide (p = ref)) as [->|Hne].
  - assert (o = op) as -> by congruence.
    unfold eqPath. rewrite bool_decide_eq_true_2 by done.
    apply (represents_node _ ref (pushChild (length h) op)); [done|].
    simpl. apply Forall2_app; [done|]. constructor; [|constructor].
    apply (represents_node _ (length h) (Obj f [])); [|constructor].
    apply lookup_pushed_new.
  - unfold eqPath. rewrite bool_decide_eq_false_2.
    2:{ intros E. apply Hne. symmetry. by eapply Hinj. }
    rewrite app_nil_r. by apply (represents_node _ ref o).
Qed.

Lemma represents_bump (h : Store) (e : nat) (oe : NodeObj) (mv : Z)
    (t : HierarchyNode) :
  h !! e = Some oe ->
  (forall r o, h !! r = Some o ->
     Fields.path (ofields o) = Fields.path (ofields oe) -> r = e) ->
  forall ref, represents h ref t ->
    represents (alter (addValue mv) e h) ref
      (bump (Fields.path (ofields oe)) mv t).
Proof.
  intros He Hinj.
  induction t as [g cs IH] using HierarchyNode_ind. intros ref Hrep.
  apply represents_inv in Hrep as (o & Hlook & Hg & Hkids). simpl in Hg, Hkids.
  subst g. simpl.
  pose proof (Forall2_represents_map _ _ _ _ _ IH Hkids) as Hkids'.
  destruct (decide (e = ref)) as [->|Hne].
  - assert (o = oe) as -> by congruence.
    unfold eqPath. rewrite bool_decide_eq_true_2 by done.
    apply (represents_node _ ref (addValue mv oe)); [|done].
    by rewrite list_lookup_alter_eq, He.
  - unfold eqPath. rewrite bool_decide_eq_false_2.
    2:{ intros E. apply Hne. symmetry. by eapply Hinj. }
    apply (represents_node _ ref o); [|done].
    by rewrite list_lookup_alter_ne.
Qed.

Lemma represents_occurs (h : Store) (key : jsstring) (t : HierarchyNode) :
  forall ref, represents h ref t -> occurrences key t <> 0%nat ->
    exists r o, h !! r = Some o /\ Fields.path (ofields o) = key.
Proof.
  induction t as [g cs IH] using HierarchyNode_ind. intros ref Hrep Hocc.
  apply represents_inv in Hrep as (o & Hlook & Hg & Hkids). simpl in *.
  subst g. unfold eqPath in Hocc. case_bool_decide as Hk.
  - by exists ref, o.
  - simpl in Hocc. clear Hlook Hk.
    induction Hkids as [|c t cs' ts Hc _ IHk]; simpl in *; [done|].
    inversion IH; subst.
    destruct (decide (occurrences key t = 0%nat)) as [E|E]; [|eauto].
    apply IHk; [done | lia].
Qed.

Lemma represents_nodes (h : Store) (t : HierarchyNode) :
  forall ref, represents h ref t ->
    forall x, In x (nodes t) -> exists r o, h !! r = Some o /\ fields x = ofields o.
Proof.
  induction t as [g cs IH] using HierarchyNode_ind. intros ref Hrep x Hx.
  pose proof Hrep as Hrep'.
  apply represents_inv in Hrep as (o & Hlook & Hg & Hkids). simpl in *.
  destruct Hx as [<-|Hx]; [by exists ref, o|].
  clear Hlook Hrep'.
  induction Hkids as [|c t cs' ts Hc _ IHk]; simpl in *; [done|].
  inversion IH; subst. apply in_app_or in Hx as [Hx|Hx]; eauto.
Qed.

(** Reading the store with enough fuel gives the tree it holds. *)
Lemma represents_reify (h : Store) (t : HierarchyNode) :
  (forall ref o child, h !! ref = Some o -> In child (ochildren o) ->
     (ref < child < length h)%nat) ->
  forall ref fuel, represents h ref t -> (length h - ref <= fuel)%nat ->
    reify fuel h ref = t.
Proof.
  intros Hfwd.
  induction t as [g cs IH] using HierarchyNode_ind. intros ref fuel Hrep Hfuel.
  apply represents_inv in Hrep as (o & Hlook & Hg & Hkids). simpl in *. subst g.
  pose proof (lookup_lt_Some _ _ _ Hlook) as Hlt.
  destruct fuel as [|fuel]; [lia|]. simpl. rewrite Hlook. f_equal.
  assert (forall child, In child (ochildren o) ->
            (ref < child < length h)%nat) as Hf.
  { intros child Hin. by eapply Hfwd. }
  clear Hlook.
  induction Hkids as [|c t cs' ts Hc _ IHk]; simpl in *; [done|].
  inversion IH as [|? ? Hhead Htail]; subst. f_equal.
  - apply Hhead; [done|]. specialize (Hf c (or_introl eq_refl)). lia.
  - apply IHk; [done|]. intros child Hin. apply Hf. by right.
Qed.

(** ** The two updates of the store *)

Lemma heapWeight_snoc (h : Store) (x : NodeObj) :
  heapWeight (h ++ [x]) = (heapWeight h + orZero (Fields.value (ofields x)))%Z.
Proof. unfold heapWeight. rewrite map_app, sumZ_app. simpl. lia. Qed.

Lemma heapWeight_alter (g : NodeObj -> NodeObj) (d : Z) (h : Store) :
  (forall o, orZero (Fields.value (ofields (g o)))
             = (orZero (Fields.value (ofields o)) + d)%Z) ->
  forall e oe, h !! e = Some oe ->
    heapWeight (alter g e h) = (heapWeight h + d)%Z.
Proof.
  intros Hg. unfold heapWeight, sumZ.
  induction h as [|o h IH]; intros e oe He; [done|].
  destruct e as [|e].
  - change (alter g 0%nat (o :: h)) with (g o :: h).
    cbn [map foldr]. rewrite Hg. lia.
  - change (alter g (S e) (o :: h)) with (o :: alter g e h).
    cbn [map foldr]. rewrite (IH e oe He). lia.
Qed.

Lemma lookup_pushed_inv (h : Store) (p ref : nat) (x o' : NodeObj) :
  (alter (pushChild (length h)) p h ++ [x]) !! ref = Some o' ->
  (ref = length h /\ o' = x)
  \/ exists o, h !! ref = Some o /\ ofields o' = ofields o
       /\ (ochildren o' = ochildren o
           \/ (ref = p /\ ochildren o' = ochildren o ++ [length h])).
Proof.
  intros H. apply lookup_snoc_Some in H as [[Hlt H]|[-> <-]].
  - right. rewrite length_alter in Hlt.
    destruct (lookup_lt_is_Some_2 h ref Hlt) as [o Ho].
    rewrite list_lookup_alter in H. destruct (decide (p = ref)) as [->|].
    + rewrite Ho in H. injection H as <-. exists o. simpl. auto.
    + exists o. rewrite Ho in H. injection H as <-. auto.
  - left. by rewrite length_alter.
Qed.

Lemma lookup_added_inv (h : Store) (e ref : nat) (mv : Z) (o' : NodeObj) :
  alter (addValue mv) e h !! ref = Some o' ->
  exists o, h !! ref = Some o
    /\ Fields.path (ofields o') = Fields.path (ofields o)
    /\ ochildren o' = ochildren o.
Proof.
  rewrite list_lookup_alter. destruct (decide (e = ref)) as [->|].
  - destruct (h !! ref) as [o|]; [|done]. intros [= <-]. exists o. simpl.
    by rewrite accumulate_path.
  - intros H. by exists o'.
Qed.

Lemma accumulate_value_Some (mv : Z) (f : Fields.t) :
  Fields.value (accumulate mv f) = Some (orZero (Fields.value f) + mv)%Z.
Proof. unfold accumulate. by destruct (Fields.value f). Qed.

Section Updates.
Variables (b : Builder) (t : HierarchyNode).
Hypothesis Hwf : WellFormed b t.

Lemma wf_injective (r1 r2 : nat) (o1 o2 : NodeObj) :
  heap b !! r1 = Some o1 -> heap b !! r2 = Some o2 ->
  Fields.path (ofields o1) = Fields.path (ofields o2) -> r1 = r2.
Proof using Hwf.
  intros H1 H2 E. apply (wf_keyed _ _ Hwf) in H1, H2. congruence.
Qed.

Lemma wf_unregistered_absent (key : jsstring) :
  nodeMap b !! key = None -> occurrences key t = 0%nat.
Proof using Hwf.
  intros Hnone. destruct (decide (occurrences key t = 0%nat)) as [|Hocc]; [done|].
  destruct (represents_occurs _ key _ _ (wf_represents _ _ Hwf) Hocc)
    as (r & o & Hr & Hk).
  apply (wf_keyed _ _ Hwf) in Hr. congruence.
Qed.

(** Moving [parentNode] to a registered object. *)
Lemma wf_move (key : jsstring) (e : nat) :
  nodeMap b !! key = Some e ->
  WellFormed (mkBuilder (heap b) (nodeMap b) e) t.
Proof using Hwf.
  intros He. destruct Hwf. constructor; simpl; try done.
  destruct (wf_registered0 _ _ He) as (o & Ho & _). by eapply lookup_lt_Some.
Qed.

(** Adding a weight at a registered object. *)
Lemma wf_accumulate (key : jsstring) (e : nat) (mv : Z) :
  nodeMap b !! key = Some e ->
  WellFormed (mkBuilder (alter (addValue mv) e (heap b)) (nodeMap b) e)
    (bump key mv t)
  /\ heapWeight (alter (addValue mv) e (heap b)) = (heapWeight (heap b) + mv)%Z.
Proof using Hwf.
  intros He.
  destruct (wf_registered _ _ Hwf _ _ He) as (oe & Hoe & Hkey).
  split.
  2:{ eapply heapWeight_alter; [|exact Hoe]. intros o. simpl.
      apply accumulate_value. }
  constructor; simpl.
  - subst key. apply represents_bump; [done| |apply Hwf].
    intros r o Hr E. by eapply wf_injective.
  - apply Hwf.
  - rewrite length_alter. by eapply lookup_lt_Some.
  - intros k ref Hk. destruct (wf_registered _ _ Hwf _ _ Hk) as (o & Ho & Hp).
    rewrite list_lookup_alter. destruct (decide (e = ref)) as [->|].
    + rewrite Ho. eexists. split; [done|]. simpl. by rewrite accumulate_path.
    + by exists o.
  - intros ref o' H. apply lookup_added_inv in H as (o & Ho & -> & _).
    by apply Hwf.
  - intros ref o' H. apply lookup_added_inv in H as (o & Ho & -> & _).
    rewrite occurrences_bump. by eapply wf_once.
  - rewrite subtreeWeight_bump, (wf_weight _ _ Hwf).
    rewrite <- Hkey, (wf_once _ _ Hwf _ _ Hoe).
    erewrite heapWeight_alter; [|intros o; simpl; apply accumulate_value|exact Hoe].
    lia.
  - intros ref o' child H. apply lookup_added_inv in H as (o & Ho & _ & ->).
    rewrite length_alter. by apply Hwf.
Qed.

(** Creating an object below [parentNode] and registering it. *)
Lemma wf_attach (key : jsstring) (f : Fields.t) (op : NodeObj) :
  nodeMap b !! key = None -> Fields.path f = key ->
  heap b !! parentNode b = Some op ->
  WellFormed
    (mkBuilder (alter (pushChild (length (heap b))) (parentNode b) (heap b)
                ++ [Obj f []])
       (<[key := length (heap b)]> (nodeMap b)) (length (heap b)))
    (graft (Fields.path (ofields op)) f t)
  /\ heapWeight (alter (pushChild (length (heap b))) (parentNode b) (heap b)
                 ++ [Obj f []])
     = (heapWeight (heap b) + orZero (Fields.value f))%Z.
Proof using Hwf.
  intros Hnew Hf Hp.
  assert (heapWeight (alter (pushChild (length (heap b))) (parentNode b) (heap b)
                      ++ [Obj f []])
          = (heapWeight (heap b) + orZero (Fields.value f))%Z) as Hweight.
  { rewrite heapWeight_snoc. simpl.
    rewrite (heapWeight_alter (pushChild (length (heap b))) 0%Z _
               (fun o => eq_sym (Z.add_0_r _)) _ _ Hp).
    lia. }
  split; [|done].
  constructor; simpl.
  - apply represents_graft; [done| |apply Hwf].
    intros r o Hr E. by eapply wf_injective.
  - rewrite lookup_insert_ne; [apply Hwf|].
    intros ->. pose proof (wf_root _ _ Hwf). congruence.
  - rewrite length_app, length_alter. simpl. lia.
  - intros k ref Hk. rewrite lookup_insert in Hk.
    destruct (decide (key = k)) as [<-|Hne].
    + injection Hk as <-. exists (Obj f []). split; [|done].
      apply lookup_pushed_new.
    + destruct (wf_registered _ _ Hwf _ _ Hk) as (o & Ho & Hpath).
      erewrite lookup_pushed by done. eexists. split; [done|].
      by destruct (decide (parentNode b = ref)).
  - intros ref o' H. apply lookup_pushed_inv in H as [[-> ->]|(o & Ho & E & _)].
    + simpl. rewrite Hf. apply lookup_insert_eq.
    + rewrite E. pose proof (wf_keyed _ _ Hwf _ _ Ho) as Hk.
      rewrite lookup_insert_ne; [done|]. intros Ek. congruence.
  - intros ref o' H. rewrite occurrences_graft.
    apply lookup_pushed_inv in H as [[-> ->]|(o & Ho & E & _)].
    + simpl. unfold eqPath. rewrite bool_decide_eq_true_2 by done.
      rewrite Hf, (wf_unregistered_absent key Hnew).
      by rewrite (wf_once _ _ Hwf _ _ Hp).
    + rewrite E, (wf_once _ _ Hwf _ _ Ho).
      unfold eqPath. rewrite bool_decide_eq_false_2; [done|].
      rewrite Hf. intros Ek. pose proof (wf_keyed _ _ Hwf _ _ Ho). congruence.
  - rewrite subtreeWeight_graft, (wf_weight _ _ Hwf), Hweight.
    rewrite (wf_once _ _ Hwf _ _ Hp). lia.
  - intros ref o' child H Hin.
    rewrite length_app, length_alter. simpl.
    apply lookup_pushed_inv in H as [[-> ->]|(o & Ho & _ & [E|[-> E]])].
    + done.
    + rewrite E in Hin. pose proof (wf_forward _ _ Hwf _ _ _ Ho Hin). lia.
    + rewrite E in Hin. apply in_app_or in Hin as [Hin|[<-|[]]].
      * pose proof (wf_forward _ _ Hwf _ _ _ Ho Hin). lia.
      * apply lookup_lt_Some in Ho. lia.
Qed.
End Updates.

(** ** The builder, level by level *)

Lemma valueAt_accumulate (b : Builder) (t : HierarchyNode) (key k : jsstring)
    (e : nat) (mv : Z) :
  WellFormed b t -> nodeMap b !! key = Some e ->
  valueAt (mkBuilder (alter (addValue mv) e (heap b)) (nodeMap b) e) k
  = if bool_decide (k = key) then Some (orZero (valueAt b k) + mv)%Z
    else valueAt b k.
Proof.
  intros Hwf He. unfold valueAt. simpl.
  destruct (wf_registered _ _ Hwf _ _ He) as (oe & Hoe & Hkey).
  case_bool_decide as Hk.
  - subst k. rewrite He, Hoe, list_lookup_alter_eq, Hoe. simpl.
    apply accumulate_value_Some.
  - destruct (nodeMap b !! k) as [ref|] eqn:Hr; [|done].
    destruct (wf_registered _ _ Hwf _ _ Hr) as (o & Ho & Hpath).
    rewrite list_lookup_alter_ne; [done|]. intros <-. congruence.
Qed.

Lemma valueAt_attach (b : Builder) (t : HierarchyNode) (key k : jsstring)
    (f : Fields.t) :
  WellFormed b t -> nodeMap b !! key = None ->
  valueAt (mkBuilder (alter (pushChild (length (heap b))) (parentNode b) (heap b)
                      ++ [Obj f []])
             (<[key := length (heap b)]> (nodeMap b)) (length (heap b))) k
  = if bool_decide (k = key) then Fields.value f else valueAt b k.
Proof.
  intros Hwf Hnew. unfold valueAt. simpl.
  case_bool_decide as Hk.
  - subst k. by rewrite lookup_insert_eq, lookup_pushed_new.
  - rewrite lookup_insert_ne by done.
    destruct (nodeMap b !! k) as [ref|] eqn:Hr; [|done].
    destruct (wf_registered _ _ Hwf _ _ Hr) as (o & Ho & Hpath).
    erewrite lookup_pushed by done. rewrite Ho.
    by destruct (decide (parentNode b = ref)).
Qed.

Lemma visitLevel_step (m : option (gmap jsstring jsstring)) (mv : Z)
    (path : list ParsedLevel) (b : Builder) (level : ParsedLevel) (index : nat)
    (t : HierarchyNode) :
  WellFormed b t ->
  exists t',
    WellFormed (visitLevel m mv path b level index) t'
    /\ heapWeight (heap (visitLevel m mv path b level index))
       = (heapWeight (heap b)
          + if (index =? length path - 1)%nat then mv else 0)%Z
    /\ forall k,
         valueAt (visitLevel m mv path b level index) k
         = if (index =? length path - 1)%nat
              && bool_decide (k = buildPathKey (take (index + 1) path))
           then Some (orZero (valueAt b k) + mv)%Z
           else valueAt b k.
Proof.
  intros Hwf. unfold visitLevel.
  set (key := buildPathKey (take (index + 1) path)).
  destruct (nodeMap b !! key) as [e|] eqn:Hkey.
  - destruct (index =? length path - 1)%nat.
    + destruct (wf_accumulate b t Hwf key e mv Hkey) as [Hwf' Hw].
      exists (bump key mv t). split; [done|]. split; [done|].
      intros k. simpl. by eapply valueAt_accumulate.
    + exists t. split; [by eapply wf_move|]. split; [simpl; lia|done].
  - destruct (lookup_lt_is_Some_2 _ _ (wf_parent _ _ Hwf)) as [op Hp].
    match goal with |- context [Obj ?f []] => set (f' := f) end.
    destruct (wf_attach b t Hwf key f' op Hkey eq_refl Hp) as [Hwf' Hw].
    eexists. split; [exact Hwf'|]. split.
    + simpl. rewrite Hw. subst f'. simpl.
      by destruct (index =? length path - 1)%nat.
    + intros k. rewrite (valueAt_attach b t key k f' Hwf Hkey).
      subst f'. simpl. unfold valueAt.
      case_bool_decide as Hk.
      * subst k. rewrite Hkey. simpl.
        by destruct (index =? length path - 1)%nat.
      * by rewrite andb_false_r.
Qed.

Lemma walk_path (m : option (gmap jsstring jsstring)) (mv : Z)
    (path : list ParsedLevel) :
  forall (rest done : list ParsedLevel) (b : Builder) (t : HierarchyNode),
    path = done ++ rest -> WellFormed b t ->
    exists t',
      WellFormed (forEachFrom (visitLevel m mv path) rest (length done) b) t'
      /\ heapWeight (heap (forEachFrom (visitLevel m mv path) rest (length done) b))
         = (heapWeight (heap b) + match rest with [] => 0 | _ :: _ => mv end)%Z
      /\ forall k,
           valueAt (forEachFrom (visitLevel m mv path) rest (length done) b) k
           = match rest with
             | [] => valueAt b k
             | _ :: _ =>
                 if bool_decide (k = buildPathKey path)
                 then Some (orZero (valueAt b k) + mv)%Z
                 else valueAt b k
             end.
Proof.
  induction rest as [|x rest IH]; intros done b t Hpath Hwf.
  - exists t. simpl. split; [done|]. split; [lia|done].
  - simpl.
    destruct (visitLevel_step m mv path b x (length done) t Hwf)
      as (t1 & Hwf1 & Hw1 & Hv1).
    destruct (IH (done ++ [x]) (visitLevel m mv path b x (length done)) t1)
      as (t2 & Hwf2 & Hw2 & Hv2).
    { by rewrite <- app_assoc. }
    { exact Hwf1. }
    rewrite length_app in Hwf2, Hw2, Hv2. simpl in Hwf2, Hw2, Hv2.
    rewrite Nat.add_1_r in Hwf2, Hw2, Hv2.
    exists t2. split; [done|].
    assert (length path = length done + S (length rest))%nat as Hlen.
    { rewrite Hpath, length_app. simpl. lia. }
    destruct rest as [|y rest].
    + assert ((length done =? length path - 1)%nat = true) as Hlast.
      { apply Nat.eqb_eq. simpl in Hlen. lia. }
      rewrite Hlast in Hw1, Hv1. simpl in Hv1.
      assert (take (length done + 1) path = path) as Htake.
      { apply take_ge. simpl in Hlen. lia. }
      rewrite Htake in Hv1.
      split; [rewrite Hw2, Hw1; lia|].
      intros k. by rewrite Hv2, Hv1.
    + assert ((length done =? length path - 1)%nat = false) as Hlast.
      { apply Nat.eqb_neq. simpl in Hlen. lia. }
      rewrite Hlast in Hw1, Hv1. simpl in Hv1.
      split; [rewrite Hw2, Hw1; lia|].
      intros k. by rewrite Hv2, !Hv1.
Qed.

Lemma processRow_step (m : option (gmap jsstring jsstring)) (b : Builder)
    (row : SigmaDataRow) (t : HierarchyNode) :
  WellFormed b t ->
  exists t',
    WellFormed (processRow m b row) t'
    /\ heapWeight (heap (processRow m b row))
       = (heapWeight (heap b) + if hasPath row then rowWeight row else 0)%Z
    /\ forall k,
         valueAt (processRow m b row) k
         = if terminatesAt k row
           then Some (orZero (valueAt b k) + rowWeight row)%Z
           else valueAt b k.
Proof.
  intros Hwf. unfold processRow, hasPath, terminatesAt, hasPath, forEach.
  destruct (extractPath row) as [|x path] eqn:Hpath.
  - exists t. split; [done|]. split; [lia|done].
  - pose proof (wf_move b t Hwf [] 0%nat (wf_root _ _ Hwf)) as Hwf0.
    destruct (walk_path m (orZero (SigmaDataRow.marketValue row)) (x :: path)
                (x :: path) [] _ t eq_refl Hwf0) as (t' & Hwf' & Hw & Hv).
    exists t'. split; [done|]. split; [done|].
    intros k. rewrite Hv. simpl.
    destruct (decide (k = buildPathKey (x :: path))) as [->|Hne].
    + by rewrite !bool_decide_eq_true_2.
    + rewrite !bool_decide_eq_false_2; [done|congruence|done].
Qed.

(** ** HierarchyBuilder: the whole build *)

Lemma initialBuilder_wf : WellFormed initialBuilder (Node rootFields []).
Proof.
  constructor; simpl.
  - apply (represents_node _ 0%nat (Obj rootFields [])); [done|constructor].
  - apply lookup_singleton_eq.
  - lia.
  - intros key ref H. apply lookup_singleton_Some in H as [<- <-].
    by exists (Obj rootFields []).
  - intros ref o H. apply list_lookup_singleton_Some in H as [-> <-].
    apply lookup_singleton_eq.
  - intros ref o H. apply list_lookup_singleton_Some in H as [-> <-].
    reflexivity.
  - done.
  - intros ref o child H. apply list_lookup_singleton_Some in H as [-> <-].
    simpl. done.
Qed.

Lemma accumulated_cons (row : SigmaDataRow) (rows : list SigmaDataRow)
    (k : jsstring) :
  accumulated (row :: rows) k
  = if terminatesAt k row
    then Some (rowWeight row + orZero (accumulated rows k))%Z
    else accumulated rows k.
Proof.
  unfold accumulated. simpl. destruct (terminatesAt k row); [|done].
  destruct (List.filter (terminatesAt k) rows); simpl; [|done].
  f_equal.
Qed.

Lemma build_from (m : option (gmap jsstring jsstring)) (rows : list SigmaDataRow) :
  forall (b : Builder) (t : HierarchyNode),
    WellFormed b t ->
    exists t',
      WellFormed (foldl (processRow m) b rows) t'
      /\ heapWeight (heap (foldl (processRow m) b rows))
         = (heapWeight (heap b) + sumZ (map rowWeight (List.filter hasPath rows)))%Z
      /\ forall k,
           valueAt (foldl (processRow m) b rows) k
           = match accumulated rows k with
             | Some v => Some (orZero (valueAt b k) + v)%Z
             | None => valueAt b k
             end.
Proof.
  induction rows as [|row rows IH]; intros b t Hwf.
  - exists t. simpl. split; [done|]. split; [lia|done].
  - simpl foldl.
    destruct (processRow_step m b row t Hwf) as (t1 & Hwf1 & Hw1 & Hv1).
    destruct (IH _ t1 Hwf1) as (t2 & Hwf2 & Hw2 & Hv2).
    exists t2. split; [done|]. split.
    + rewrite Hw2, Hw1. simpl. destruct (hasPath row); simpl; lia.
    + intros k. rewrite Hv2, Hv1, accumulated_cons.
      destruct (terminatesAt k row); [|done].
      destruct (accumulated rows k); simpl; f_equal; lia.
Qed.

Lemma build_wf (rows : list SigmaDataRow) (m : option (gmap jsstring jsstring)) :
  exists t,
    WellFormed (build rows m) t
    /\ transformToHierarchy rows m = t
    /\ heapWeight (heap (build rows m))
       = sumZ (map rowWeight (List.filter hasPath rows))
    /\ forall k, valueAt (build rows m) k = accumulated rows k.
Proof.
  destruct (build_from m rows _ _ initialBuilder_wf) as (t & Hwf & Hw & Hv).
  exists t. split; [done|]. split; [|split].
  - unfold transformToHierarchy. fold (build rows m) in Hwf.
    apply represents_reify; [apply Hwf | apply Hwf | lia].
  - exact Hw.
  - intros k. unfold build. rewrite Hv.
    destruct (accumulated rows k) as [v|]; [|].
    + assert (valueAt initialBuilder k = None) as ->.
      { unfold valueAt. simpl.
        destruct (decide (k = [])) as [->|Hne].
        - by rewrite lookup_singleton_eq.
        - by rewrite lookup_singleton_ne. }
      done.
    + unfold valueAt. simpl.
      destruct (decide (k = [])) as [->|Hne].
      * by rewrite lookup_singleton_eq.
      * by rewrite lookup_singleton_ne.
Qed.




(** The example of the specification: the root, then "A (1)-X" with its two
    children, each with the weight of its row. *)
Example transformToHierarchy_example :
  map (fun n => (Fields.path (fields n), Fields.value (fields n)))
    (nodes (transformToHierarchy exampleRows None))
  = [ ([], None);
      (lit "A (1)-X", None);
      (lit "A (1)-X|B (2)-Y", Some 100%Z);
      (lit "A (1)-X|C (3)-Z", Some 200%Z) ].
Proof. reflexivity. Qed.

(** Nodes are identified by their path key: a level string that holds the
    delimiter reaches the node of the two-level path with the same key, and
    its weight is added there. *)
Example transformToHierarchy_shared_key :
  map (fun n => (Fields.path (fields n), Fields.value (fields n)))
    (nodes (transformToHierarchy
              [exampleRow 200 "A" "C"; exampleRow 5 "A|C" ""] None))
  = [ ([], None); (lit "A", None); (lit "A|C", Some 205%Z) ].
Proof. reflexivity. Qed.

(** ** HierarchyBuilder: the effective path *)

Lemma parseLevel_raw (s : jsstring) (p : ParsedLevel) :
  parseLevel (Some s) = Some p -> ParsedLevel.raw p = s.
Proof.
  unfold parseLevel. destruct s as [|x s]; [done|].
  destruct (jsMatch levelRegex (x :: s)); by intros [= <-].
Qed.

Lemma parseLevel_present (s : jsstring) :
  s <> [] -> exists p, parseLevel (Some s) = Some p.
Proof.
  intros Hs. unfold parseLevel. destruct s as [|x s]; [done|].
  destruct (jsMatch levelRegex (x :: s)); eauto.
Qed.

Lemma extractPathLoop_acc (ls : list (option jsstring)) :
  forall acc, extractPathLoop ls acc = acc ++ extractPathLoop ls [].
Proof.
  induction ls as [|level ls IH]; intros acc; simpl.
  - by rewrite app_nil_r.
  - destruct (truthy level); simpl; [|by rewrite app_nil_r].
    destruct (parseLevel level) as [p|]; [|apply IH].
    rewrite (IH (acc ++ [p])), (IH [p]). by rewrite <- app_assoc.
Qed.

Lemma extractPathLoop_effective (present : list jsstring) :
  forall ls, EffectivePath ls present ->
    map ParsedLevel.raw (extractPathLoop ls []) = present
    /\ Forall2 (fun s p => parseLevel (Some s) = Some p) present
         (extractPathLoop ls []).
Proof.
  induction present as [|s present IH]; intros ls (Hne & rest & -> & Hgap).
  - simpl. destruct rest as [|gap rest]; simpl; [by split|].
    rewrite Hgap. simpl. by split.
  - inversion Hne as [|? ? Hs Hne']; subst.
    destruct s as [|x s]; [done|].
    cbn [map app extractPathLoop truthy negb].
    destruct (parseLevel_present (x :: s) Hs) as (p & Hp). rewrite Hp.
    rewrite extractPathLoop_acc. cbn [map app].
    destruct (IH (map Some present ++ rest)) as [IH1 IH2].
    { split; [done|]. by exists rest. }
    rewrite IH1, (parseLevel_raw _ _ Hp). split; [done|]. by constructor.
Qed.

(** Every sequence of level fields has an effective path. *)
Lemma effectivePath_exists (ls : list (option jsstring)) :
  exists present, EffectivePath ls present.
Proof.
  induction ls as [|level ls (present & Hne & rest & -> & Hgap)].
  - exists []. split; [constructor|]. by exists [].
  - destruct (truthy level) eqn:Ht.
    + destruct level as [[|x s]|]; try done.
      exists ((x :: s) :: present). split; [by constructor|]. by exists rest.
    + exists []. split; [constructor|]. by exists (level :: map Some present ++ rest).
Qed.

Lemma parsed_unique (present : list jsstring) (p1 p2 : list ParsedLevel) :
  Forall2 (fun s p => parseLevel (Some s) = Some p) present p1 ->
  Forall2 (fun s p => parseLevel (Some s) = Some p) present p2 ->
  p1 = p2.
Proof.
  intros H1. revert p2. induction H1 as [|s p present p1 Hp _ IH]; intros p2 H2.
  - by inversion H2.
  - inversion H2 as [|? q ? p2' Hq H2']; subst. f_equal; [congruence|].
    by apply IH.
Qed.

(** C4.  The path extracted from a row is made of the level fields before
    the first missing or empty one, each parsed by [parseLevel]; whatever
    follows that gap plays no part: rows that agree up to their first gap
    have the same path.  A row whose first level is missing has an empty
    path and leaves the builder, hence the tree, as it was. *)
Theorem extractPath_gap_rule (row : SigmaDataRow) (present : list jsstring) :
  EffectivePath (levels row) present ->
  map ParsedLevel.raw (extractPath row) = present
  /\ Forall2 (fun s p => parseLevel (Some s) = Some p) present (extractPath row)
  /\ (forall row', EffectivePath (levels row') present ->
        extractPath row' = extractPath row)
  /\ (present = [] ->
      forall m (before after : list SigmaDataRow),
        build (before ++ row :: after) m = build (before ++ after) m
        /\ transformToHierarchy (before ++ row :: after) m
           = transformToHierarchy (before ++ after) m).
Proof.
  intros Heff.
  destruct (extractPathLoop_effective present (levels row) Heff) as [H1 H2].
  split; [done|]. split; [done|]. split.
  { intros row' Heff'.
    destruct (extractPathLoop_effective present (levels row') Heff') as [_ H2'].
    by eapply parsed_unique. }
  intros -> m before after.
  assert (build (before ++ row :: after) m = build (before ++ after) m) as Hb.
  { unfold build. rewrite !foldl_app. simpl. f_equal.
    unfold processRow. fold (extractPath row) in H1.
    by destruct (extractPath row). }
  split; [done|]. unfold transformToHierarchy. by rewrite Hb.
Qed.

(** The example of the specification, a gap at the first level, and a row
    with a level present after its gap. *)
Lemma extractPath_gap_rule_witness :
  let row := SigmaDataRow.mk (Some 7%Z) None None (Some (lit "X (1)-Y"))
               None None None None None None None None None in
  let row' := SigmaDataRow.mk (Some 7%Z) None (Some (lit "A (1)-X")) None
                (Some (lit "Z (9)-Q")) None None None None None None None None in
  (map ParsedLevel.raw (extractPath row) = []
   /\ forall m before after,
        transformToHierarchy (before ++ row :: after) m
        = transformToHierarchy (before ++ after) m)
  /\ map ParsedLevel.raw (extractPath row') = [lit "A (1)-X"].
Proof.
  intros row row'. split.
  - destruct (extractPath_gap_rule row []) as (H1 & _ & _ & H3).
    + split; [constructor|]. exists (levels row). split; reflexivity.
    + split; [exact H1|]. intros m before after. by apply H3.
  - destruct (extractPath_gap_rule row' [lit "A (1)-X"]) as (H1 & _).
    + split; [constructor; [discriminate|constructor]|].
      exists (skipn 1 (levels row')). split; reflexivity.
    + exact H1.
Defined.

(** ** SearchIndexer *)

Lemma trim_blank (s : jsstring) : forallb isWhiteSpace s = true -> trim s = [].
Proof.
  intros Hs. unfold trim, trimStart, trimEnd.
  by destruct (run_to_end isWhiteSpace s Hs) as [_ ->].
Qed.

(** C10.  With a query that is empty or made of white space only,
    [searchNodes] returns the empty list, whatever the records. *)
Theorem searchNodes_blank_query (toLowerCase : jsstring -> jsstring)
    (searchTerm : jsstring) (searchResults : list SearchResult) :
  forallb isWhiteSpace searchTerm = true ->
  searchNodes toLowerCase searchTerm searchResults = [].
Proof. intros Hq. unfold searchNodes. by rewrite trim_blank. Qed.

Lemma searchNodes_blank_query_witness :
  searchNodes asciiToLowerCase (lit "  ")
    [SearchResult.mk (lit "Finity Group") (Some (lit "06921")) (Some (lit "WN8"))
       None (Some (lit "Finity Group (06921)-WN8")) (lit "Finity Group (06921)-WN8")
       5%Z 0%Z] = []
  /\ searchNodes asciiToLowerCase []
       [SearchResult.mk (lit "Finity Group") None None None None [] 5%Z 0%Z] = [].
Proof.
  split; apply searchNodes_blank_query; reflexivity.
Defined.

Lemma flattenHierarchy_acc (t : HierarchyNode) :
  forall results,
    flattenHierarchy t results
    = results ++ map recordOf (List.filter nonRoot (nodes t)).
Proof.
  induction t as [f cs IH] using HierarchyNode_ind. intros results.
  cbn [flattenHierarchy nodes fields children List.filter].
  unfold nonRoot at 1. cbn [fields].
  set (results1 := if (0 <=? Fields.level f)%Z
                   then results ++ [searchRecord f] else results).
  assert (forall acc,
            foldl (fun acc child => flattenHierarchy child acc) acc cs
            = acc ++ map recordOf (List.filter nonRoot (flat_map nodes cs))) as ->.
  { induction IH as [|c cs Hc _ IHcs]; intros acc; simpl.
    - by rewrite app_nil_r.
    - rewrite IHcs, Hc, List.filter_app, map_app. by rewrite <- app_assoc. }
  subst results1. destruct (0 <=? Fields.level f)%Z; simpl; [|done].
  by rewrite <- app_assoc.
Qed.

(** C1 (as amended).  The record [flattenHierarchy] produces for a non-root
    node carries, as its value, the node's own direct value (0 when
    absent), not the weight of its subtree; the two agree on childless
    nodes.  The records are those of the non-root nodes in pre-order. *)
Theorem flattenHierarchy_records (t : HierarchyNode) :
  flattenHierarchy t [] = map recordOf (List.filter nonRoot (nodes t))
  /\ (forall n, SearchResult.value (recordOf n) = directValue n)
  /\ (forall n, children n = [] -> SearchResult.value (recordOf n) = subtreeWeight n).
Proof.
  split; [by rewrite flattenHierarchy_acc|]. split; [done|].
  intros [f cs] Hcs. simpl in Hcs. subst cs.
  rewrite subtreeWeight_node. simpl. unfold recordOf, searchRecord. simpl. lia.
Qed.

(** The theorem on the tree of the specification's example: three records,
    with the direct values 0, 100 and 200. *)
Lemma flattenHierarchy_records_witness :
  let tree := transformToHierarchy exampleRows None in
  map SearchResult.value (flattenHierarchy tree [])
  = map directValue (List.filter nonRoot (nodes tree))
  /\ map SearchResult.value (flattenHierarchy tree []) = [0%Z; 100%Z; 200%Z].
Proof.
  intros tree.
  destruct (flattenHierarchy_records tree) as (Hrec & Hval & _).
  rewrite Hrec, map_map. split; [|reflexivity].
  apply map_ext. exact Hval.
Defined.

(** C1 (as stated) fails on the tree built from the example rows of the
    specification: the record of "A (1)-X" carries 0, while the direct
    values below that node add up to 300. *)
Lemma flattenHierarchy_aggregate_counterexample :
  let tree := transformToHierarchy exampleRows None in
  exists n record,
    nth_error (List.filter nonRoot (nodes tree)) 0 = Some n
    /\ nth_error (flattenHierarchy tree []) 0 = Some record
    /\ SearchResult.path record = Fields.path (fields n)
    /\ Fields.path (fields n) = lit "A (1)-X"
    /\ SearchResult.value record = 0%Z
    /\ subtreeWeight n = 300%Z.
Proof.
  intros tree.
  set (n := nth 0 (List.filter nonRoot (nodes tree)) missingNode).
  exists n, (recordOf n). vm_compute. repeat split.
Qed.

(** ** Focus resolution *)

Lemma find_app_first {A} (p : A -> bool) (l1 l2 : list A) :
  List.find p (l1 ++ l2)
  = match List.find p l1 with Some x => Some x | None => List.find p l2 end.
Proof.
  induction l1 as [|x l1 IH]; simpl; [done|]. by destruct (p x).
Qed.

(** [findNode] returns the first node, in pre-order, with the given path. *)
Lemma findNode_find (path : jsstring) (t : HierarchyNode) :
  findNode t path = List.find (hasPathKey path) (nodes t).
Proof.
  induction t as [f cs IH] using HierarchyNode_ind.
  cbn [findNode nodes List.find fields children]. unfold hasPathKey at 1.
  cbn [fields]. destruct (eqPath (Fields.path f) path); [done|].
  induction IH as [|c cs Hc _ IHcs]; simpl; [done|].
  rewrite find_app_first, <- Hc. by destruct (findNode c path).
Qed.

Lemma findNode_None (path : jsstring) (t : HierarchyNode) :
  (forall n, In n (nodes t) -> Fields.path (fields n) <> path) ->
  findNode t path = None.
Proof.
  intros Hno. rewrite findNode_find.
  destruct (List.find (hasPathKey path) (nodes t)) as [n|] eqn:Hfind; [|done].
  apply find_some in Hfind as [Hin Hn]. exfalso. apply (Hno n Hin).
  unfold hasPathKey, eqPath in Hn. by apply bool_decide_eq_true_1 in Hn.
Qed.

Lemma findNode_Some (path : jsstring) (t n : HierarchyNode) :
  findNode t path = Some n ->
  In n (nodes t) /\ Fields.path (fields n) = path.
Proof.
  rewrite findNode_find. intros Hfind.
  apply find_some in Hfind as [Hin Hn]. split; [done|].
  unfold hasPathKey, eqPath in Hn. by apply bool_decide_eq_true_1 in Hn.
Qed.

(** C7.  Selecting a search result whose path names no node of the tree, or
    names a childless node, leaves the focus and the breadcrumbs as they
    were, as does a selection made while no tree is loaded; the state
    changes only when the node found has a child, and the focus is then
    the path selected. *)
Theorem handleSearchSelect_noop (data : HierarchyNode) (result : SearchResult)
    (st : AppState) :
  ((forall n, In n (nodes data) ->
      Fields.path (fields n) <> SearchResult.path result) ->
   handleSearchSelect (Some data) result st = st)
  /\ (forall found, findNode data (SearchResult.path result) = Some found ->
        children found = [] ->
        handleSearchSelect (Some data) result st = st)
  /\ (forall found, findNode data (SearchResult.path result) = Some found ->
        children found <> [] ->
        focusedPath (handleSearchSelect (Some data) result st)
        = Some (SearchResult.path result))
  /\ (handleSearchSelect (Some data) result st <> st ->
      exists found,
        In found (nodes data)
        /\ Fields.path (fields found) = SearchResult.path result
        /\ children found <> [])
  /\ handleSearchSelect None result st = st.
Proof.
  unfold handleSearchSelect. repeat split.
  - intros Hno. by rewrite findNode_None.
  - intros found -> Hkids. by rewrite Hkids.
  - intros found -> Hkids. by destruct (children found).
  - destruct (findNode data (SearchResult.path result)) as [found|] eqn:Hfind;
      [|done].
    destruct (children found) as [|c cs] eqn:Hkids; [done|].
    intros _. exists found. apply findNode_Some in Hfind as [Hin Hpath].
    rewrite Hkids. done.
Qed.

(** Selecting a node with children moves the focus there and leaves the
    trail of its ancestors as breadcrumbs. *)
Example handleSearchSelect_example :
  let tree := transformToHierarchy exampleRows None in
  let result path := SearchResult.mk [] None None None None path 0%Z 0%Z in
  let st := handleSearchSelect (Some tree) (result (lit "A (1)-X"))
              (mkAppState None []) in
  focusedPath st = Some (lit "A (1)-X")
  /\ map (fun n => Fields.path (fields n)) (breadcrumbs st) = [lit "A (1)-X"].
Proof. split; reflexivity. Qed.

(** The no-op clauses on the tree built from the example rows: a path that
    is not in the tree, and the path of a leaf. *)
Lemma handleSearchSelect_noop_witness :
  let tree := transformToHierarchy exampleRows None in
  let st := mkAppState (Some (lit "A (1)-X")) [] in
  let pick path := SearchResult.mk [] None None None None path 0%Z 0%Z in
  handleSearchSelect (Some tree) (pick (lit "Z")) st = st
  /\ handleSearchSelect (Some tree) (pick (lit "A (1)-X|B (2)-Y")) st = st.
Proof.
  intros tree st pick. split.
  - destruct (handleSearchSelect_noop tree (pick (lit "Z")) st) as (H & _).
    apply H. intros n Hin. vm_compute in Hin.
    destruct Hin as [<-|[<-|[<-|[<-|[]]]]]; discriminate.
  - destruct (handleSearchSelect_noop tree (pick (lit "A (1)-X|B (2)-Y")) st)
      as (_ & H & _).
    eapply H; reflexivity.
Defined.

(** ** Stable sorting *)

Lemma insertSorted_perm {A} (before : A -> A -> bool) (x : A) (l : list A) :
  Permutation (insertSorted before x l) (x :: l).
Proof.
  induction l as [|y l IH]; simpl; [done|].
  destruct (before y x); [|done].
  rewrite IH. apply perm_swap.
Qed.

Lemma stableSort_perm {A} (before : A -> A -> bool) (l : list A) :
  Permutation (stableSort before l) l.
Proof.
  unfold stableSort.
  assert (forall acc, Permutation
            (foldl (fun sorted x => insertSorted before x sorted) acc l)
            (acc ++ l)) as H.
  { induction l as [|x l IH]; intros acc; simpl.
    - by rewrite app_nil_r.
    - rewrite IH, insertSorted_perm. simpl. apply Permutation_middle. }
  apply (H []).
Qed.

(** ** Aggregate weights *)

Lemma D3Node_ind (P : D3Node -> Prop) :
  (forall d depth v cs, Forall P cs -> P (D3 d depth v cs)) -> forall n, P n.
Proof.
  intros H. fix IH 1. intros [d depth v cs]. apply H.
  induction cs as [|c cs IHcs]; constructor; [apply IH | exact IHcs].
Qed.

Lemma foldl_add_values (v : Z) (l : list D3Node) :
  foldl (fun sum child => (sum + orZero (d3value child))%Z) v l
  = (v + sumZ (map (fun child => orZero (d3value child)) l))%Z.
Proof.
  revert v. induction l as [|c l IH]; intros v; simpl; [lia|].
  rewrite IH. lia.
Qed.

Lemma sumZ_rev (l : list Z) : sumZ (rev l) = sumZ l.
Proof.
  induction l as [|x l IH]; simpl; [done|].
  rewrite sumZ_app, IH. simpl. lia.
Qed.

Section Aggregation.
Variable accessor : HierarchyNode -> Z.
Local Abbreviation Aggregated := (Aggregated accessor).

Lemma d3sum_hierarchy (t : HierarchyNode) :
  forall depth,
    data (d3sum accessor (hierarchyFrom depth t)) = t
    /\ Aggregated (d3sum accessor (hierarchyFrom depth t))
    /\ map data (descendants (d3sum accessor (hierarchyFrom depth t))) = nodes t
    /\ Forall Aggregated (descendants (d3sum accessor (hierarchyFrom depth t))).
Proof.
  induction t as [f cs IH] using HierarchyNode_ind. intros depth.
  cbn [hierarchyFrom d3sum data d3children children descendants map nodes].
  set (kids := map (d3sum accessor) (map (hierarchyFrom (S depth)) cs)).
  assert (map data (flat_map descendants kids) = flat_map nodes cs
          /\ Forall Aggregated (flat_map descendants kids)
          /\ sumZ (map (fun child => orZero (d3value child)) kids)
             = sumZ (map accessor (flat_map nodes cs))) as (Hdata & Hagg & Hsum).
  { subst kids. induction IH as [|c cs Hc _ IHcs]; simpl; [by repeat split|].
    destruct (Hc (S depth)) as (_ & Hv & Hd & Ha).
    destruct IHcs as (Hd' & Ha' & Hs').
    rewrite !map_app, sumZ_app, Hd, Hd', Hs'. unfold Aggregated in Hv.
    rewrite Hv. simpl.
    destruct (Hc (S depth)) as (-> & _).
    split; [done|]. split; [|done]. by apply Forall_app. }
  assert (Aggregated
            (D3 (Node f cs) depth
               (Some (foldl (fun sum child => (sum + orZero (d3value child))%Z)
                        (accessor (Node f cs)) (rev kids))) kids)) as Hroot.
  { unfold Aggregated. cbn [d3value data nodes children map]. f_equal.
    rewrite foldl_add_values, map_rev, sumZ_rev, Hsum. done. }
  repeat split; try done.
  - by rewrite Hdata.
  - by constructor.
Qed.

Lemma d3sort_data (before : D3Node -> D3Node -> bool) (n : D3Node) :
  data (d3sort before n) = data n /\ d3value (d3sort before n) = d3value n.
Proof. by destruct n. Qed.

Lemma d3sort_descendants (before : D3Node -> D3Node -> bool) (n : D3Node) :
  Permutation (descendants (d3sort before n)) (map (d3sort before) (descendants n)).
Proof.
  induction n as [d depth v cs IH] using D3Node_ind.
  cbn [d3sort descendants d3children map]. apply perm_skip.
  rewrite (stableSort_perm before (map (d3sort before) cs)).
  induction IH as [|c cs Hc _ IHcs]; simpl; [done|].
  rewrite map_app. by apply Permutation_app.
Qed.

Lemma d3sort_aggregated (before : D3Node -> D3Node -> bool) (n : D3Node) :
  Forall Aggregated (descendants n) ->
  Forall Aggregated (descendants (d3sort before n)).
Proof.
  intros H. rewrite d3sort_descendants.
  apply List.Forall_forall. intros x Hx. apply in_map_iff in Hx as (y & <- & Hy).
  rewrite List.Forall_forall in H. specialize (H y Hy). unfold Aggregated in *.
  by destruct (d3sort_data before y) as [-> ->].
Qed.
End Aggregation.

Lemma focusedNode_in_tree (tree : HierarchyNode) (focus : option jsstring) :
  In (focusedNode tree focus) (nodes tree).
Proof.
  unfold focusedNode. destruct (truthy focus); [|by destruct tree; left].
  destruct (findNode tree (default [] focus)) as [n|] eqn:Hfind.
  - by apply findNode_Some in Hfind as [Hin _].
  - by destruct tree; left.
Qed.

(** C6.  For every tree and every focus, the hierarchy that is laid out has
    the focused node of the tree as its root datum, holds the nodes
    of that subtree, and gives every node the sum of the direct values over
    its own subtree, itself included; a childless node gets its own direct
    value, 0 when absent. *)
Theorem layoutHierarchy_aggregate (tree : HierarchyNode) (focus : option jsstring) :
  data (layoutHierarchy tree focus) = focusedNode tree focus
  /\ In (focusedNode tree focus) (nodes tree)
  /\ Permutation (map data (descendants (layoutHierarchy tree focus)))
       (nodes (focusedNode tree focus))
  /\ forall n, In n (descendants (layoutHierarchy tree focus)) ->
       d3value n = Some (subtreeWeight (data n))
       /\ (children (data n) = [] -> d3value n = Some (directValue (data n))).
Proof.
  unfold layoutHierarchy, hierarchy.
  set (accessor := fun d => orZero (Fields.value (fields d))).
  set (before := fun a b => (orZero (d3value b) - orZero (d3value a) <=? 0)%Z).
  destruct (d3sum_hierarchy accessor (focusedNode tree focus) 0%nat)
    as (Hdata & _ & Hnodes & Hagg).
  split; [|split; [|split]].
  - by destruct (d3sort_data before
                   (d3sum accessor (hierarchyFrom 0 (focusedNode tree focus))))
      as [-> _].
  - apply focusedNode_in_tree.
  - rewrite d3sort_descendants, map_map, <- Hnodes.
    apply Permutation_refl'. apply map_ext. intros x.
    by destruct (d3sort_data before x) as [-> _].
  - intros n Hn.
    apply (d3sort_aggregated accessor before) in Hagg.
    rewrite List.Forall_forall in Hagg. specialize (Hagg n Hn).
    unfold Aggregated in Hagg. split; [exact Hagg|].
    intros Hleaf. rewrite Hagg. destruct (data n) as [f cs]. simpl in Hleaf.
    subst cs. simpl. f_equal. unfold directValue, accessor. simpl. lia.
Qed.

(** The theorem on the tree of the specification's example, focused on
    "A (1)-X". *)
Lemma layoutHierarchy_aggregate_witness :
  let tree := transformToHierarchy exampleRows None in
  let root := layoutHierarchy tree (Some (lit "A (1)-X")) in
  Fields.path (fields (data root)) = lit "A (1)-X"
  /\ d3value root = Some 300%Z
  /\ forall n, In n (descendants root) -> d3value n = Some (subtreeWeight (data n)).
Proof.
  intros tree root.
  destruct (layoutHierarchy_aggregate tree (Some (lit "A (1)-X")))
    as (Hroot & _ & _ & Hall).
  fold root in Hroot, Hall.
  split; [by rewrite Hroot|]. split.
  - destruct (Hall root) as [-> _]; [by destruct root; left|]. by rewrite Hroot.
  - intros n Hn. by destruct (Hall n Hn).
Defined.

(** The example of the specification: 300 at the root and at "A (1)-X", and
    the two leaves by descending weight; focused on "A (1)-X", the same
    values below the new root. *)
Example layoutHierarchy_example :
  map (fun n => (Fields.path (fields (data n)), d3value n))
    (descendants (layoutHierarchy (transformToHierarchy exampleRows None) None))
  = [ ([], Some 300%Z);
      (lit "A (1)-X", Some 300%Z);
      (lit "A (1)-X|C (3)-Z", Some 200%Z);
      (lit "A (1)-X|B (2)-Y", Some 100%Z) ]
  /\ map (fun n => (Fields.path (fields (data n)), d3value n))
       (descendants (layoutHierarchy (transformToHierarchy exampleRows None)
                       (Some (lit "A (1)-X"))))
     = [ (lit "A (1)-X", Some 300%Z);
         (lit "A (1)-X|C (3)-Z", Some 200%Z);
         (lit "A (1)-X|B (2)-Y", Some 100%Z) ].
Proof. split; reflexivity. Qed.

(** ** LabelSelector *)

Lemma Rltb_true (a b : R) : Rltb a b = true <-> (a < b)%R.
Proof. unfold Rltb. destruct (Rlt_dec a b); split; try done. Qed.

Lemma Rltb_false (a b : R) : Rltb a b = false <-> (b <= a)%R.
Proof.
  unfold Rltb. destruct (Rlt_dec a b); split; try done; intros H; [lra|lra].
Qed.

Lemma Rleb_true (a b : R) : Rleb a b = true <-> (a <= b)%R.
Proof. unfold Rleb. destruct (Rle_dec a b); split; try done. Qed.














Section SameGeometry.
Context {A : Type} (G : A -> A -> Prop).



End SameGeometry.





(** *** The selection on a small layout *)

Lemma Rleb_false (a b : R) : Rleb a b = false <-> (b < a)%R.
Proof.
  unfold Rleb. destruct (Rle_dec a b); split; try done; intros H; lra.
Qed.

Lemma distance_below (c a : Circle) (m : R) :
  (0 <= m)%R ->
  ((Circle.x c - Circle.x a) * (Circle.x c - Circle.x a)
   + (Circle.y c - Circle.y a) * (Circle.y c - Circle.y a) < m * m)%R ->
  (distance c a < m)%R.
Proof.
  intros Hm H. unfold distance. cbv zeta.
  rewrite <- (sqrt_square m Hm). apply sqrt_lt_1_alt. split; [|done].
  pose proof (Rle_0_sqr (Circle.x c - Circle.x a)) as Hx.
  pose proof (Rle_0_sqr (Circle.y c - Circle.y a)) as Hy.
  unfold Rsqr in Hx, Hy. lra.
Qed.

Lemma distance_above (c a : Circle) (m : R) :
  (0 <= m)%R ->
  (m * m <= (Circle.x c - Circle.x a) * (Circle.x c - Circle.x a)
            + (Circle.y c - Circle.y a) * (Circle.y c - Circle.y a))%R ->
  (m <= distance c a)%R.
Proof.
  intros Hm H. unfold distance. cbv zeta.
  rewrite <- (sqrt_square m Hm) at 1. by apply sqrt_le_1_alt.
Qed.

(** Decide the comparisons of real constants in the goal. *)
Ltac decide_order :=
  repeat match goal with
  | |- context [Rltb ?a ?b] =>
      first [ rewrite (proj2 (Rltb_true a b)) by (simpl; lra)
            | rewrite (proj2 (Rltb_false a b)) by (simpl; lra) ]
  | |- context [Rleb ?a ?b] =>
      first [ rewrite (proj2 (Rleb_true a b)) by (simpl; lra)
            | rewrite (proj2 (Rleb_false a b)) by (simpl; lra) ]
  end.

Example labelCandidates_example :
  labelCandidates exampleCircles = [circleA; circleC; circleB].
Proof.
  unfold labelCandidates, stableSort, minLabelRadius, exampleCircles.
  simpl. decide_order. simpl. decide_order. simpl. decide_order. done.
Qed.

Lemma example_C_clear_of_A : Separated circleC circleA.
Proof.
  apply distance_above; unfold minDistance, overlapAllowance; simpl; lra.
Qed.

Lemma example_B_inside_A : ~ Separated circleB circleA.
Proof.
  unfold Separated. apply Rlt_not_le.
  apply distance_below; unfold minDistance, overlapAllowance; simpl; lra.
Qed.

Example labelsToShow_example : labelsToShow exampleCircles = [circleA; circleC].
Proof.
  unfold labelsToShow. rewrite labelCandidates_example.
  unfold selectFrom. simpl.
  rewrite (proj2 (Rltb_false _ _) example_C_clear_of_A). simpl.
  rewrite (proj2 (Rltb_true (distance circleB circleA) (minDistance circleB circleA))).
  - done.
  - apply Rnot_le_lt. apply example_B_inside_A.
Qed.


(** * Further properties *)

(** ** Effective paths and path keys *)

Lemma extractPath_elements (row : SigmaDataRow) :
  Forall (fun p => parseLevel (Some (ParsedLevel.raw p)) = Some p
                   /\ ParsedLevel.raw p <> [])
    (extractPath row).
Proof.
  destruct (effectivePath_exists (levels row)) as (present & Heff).
  destruct (extractPathLoop_effective present (levels row) Heff) as [Hraw Hparse].
  destruct Heff as [Hne _]. fold (extractPath row) in Hraw, Hparse.
  clear Hraw. induction Hparse as [|s p present path Hp _ IH]; [constructor|].
  inversion Hne as [|? ? Hs Hne']; subst. constructor; [|by apply IH].
  rewrite (parseLevel_raw _ _ Hp). by split.
Qed.

Lemma extractPath_length (row : SigmaDataRow) :
  (length (extractPath row) <= 11)%nat.
Proof.
  destruct (effectivePath_exists (levels row)) as (present & Heff).
  destruct (extractPathLoop_effective present (levels row) Heff) as [Hraw _].
  destruct Heff as (_ & rest & Hlevels & _). fold (extractPath row) in Hraw.
  apply (f_equal length) in Hraw, Hlevels.
  rewrite length_map in Hraw. rewrite length_app, length_map in Hlevels.
  simpl in Hlevels. lia.
Qed.

Lemma join_starts (sep p : jsstring) (rest : list jsstring) :
  exists tail, join sep (p :: rest) = p ++ tail.
Proof.
  destruct rest as [|q rest]; simpl.
  - exists []. by rewrite app_nil_r.
  - eauto.
Qed.

Lemma buildPathKey_nonempty (path : list ParsedLevel) :
  path <> [] -> Forall (fun p => ParsedLevel.raw p <> []) path ->
  buildPathKey path <> [].
Proof.
  intros Hpath Hraw. destruct path as [|p path]; [done|].
  inversion Hraw as [|? ? Hp _]; subst. unfold buildPathKey.
  cbn [map]. destruct (join_starts [PIPE] (ParsedLevel.raw p)
                         (map ParsedLevel.raw path)) as (tail & ->).
  destruct (ParsedLevel.raw p); [done|]. discriminate.
Qed.

Lemma prefix_key_nonempty (row : SigmaDataRow) (index : nat) :
  (index < length (extractPath row))%nat ->
  buildPathKey (take (index + 1) (extractPath row)) <> [].
Proof.
  intros Hlt. apply buildPathKey_nonempty.
  - destruct (extractPath row); simpl in *; [lia|].
    by rewrite Nat.add_1_r.
  - apply Forall_take. eapply Forall_impl; [apply extractPath_elements|].
    by intros p [_ Hp].
Qed.

(** ** Properties of the fields that every step of the builder keeps *)

Section FieldsInvariant.
Variable m : option (gmap jsstring jsstring).
Variable rows0 : list SigmaDataRow.
Variable P : Fields.t -> Prop.
Hypothesis P_accumulate :
  forall mv f, Fields.path f <> [] -> P f -> P (accumulate mv f).
Hypothesis P_created :
  forall row index level v,
    In row rows0 -> extractPath row !! index = Some level ->
    P (createdFields m (extractPath row) level index v).

Lemma visitLevel_keeps (row : SigmaDataRow) (mv : Z) (b : Builder)
    (level : ParsedLevel) (index : nat) (t : HierarchyNode) :
  In row rows0 -> WellFormed b t ->
  extractPath row !! index = Some level ->
  Forall (fun o => P (ofields o)) (heap b) ->
  Forall (fun o => P (ofields o))
    (heap (visitLevel m mv (extractPath row) b level index)).
Proof using P_accumulate P_created.
  intros Hrow Hwf Hlevel Hall. unfold visitLevel.
  destruct (nodeMap b !! buildPathKey (take (index + 1) (extractPath row)))
    as [e|] eqn:Hkey; cbn [heap].
  - destruct (index =? length (extractPath row) - 1)%nat; [|done].
    apply Forall_alter; [done|]. intros o Ho Hp. simpl.
    apply P_accumulate; [|done].
    destruct (wf_registered _ _ Hwf _ _ Hkey) as (o' & Ho' & Hpath).
    assert (o' = o) as -> by congruence. rewrite Hpath.
    apply prefix_key_nonempty. by eapply lookup_lt_Some.
  - apply Forall_app. split.
    + apply Forall_alter; [done|]. by intros o _ Hp.
    + constructor; [|constructor]. simpl.
      by apply (P_created row index level).
Qed.

Lemma walk_keeps (row : SigmaDataRow) (mv : Z) :
  forall (rest seen : list ParsedLevel) (b : Builder) (t : HierarchyNode),
    In row rows0 -> extractPath row = seen ++ rest -> WellFormed b t ->
    Forall (fun o => P (ofields o)) (heap b) ->
    Forall (fun o => P (ofields o))
      (heap (forEachFrom (visitLevel m mv (extractPath row)) rest (length seen) b)).
Proof using P_accumulate P_created.
  induction rest as [|x rest IH]; intros seen b t Hrow Hpath Hwf Hall; [done|].
  simpl.
  destruct (visitLevel_step m mv (extractPath row) b x (length seen) t Hwf)
    as (t1 & Hwf1 & _).
  specialize (IH (seen ++ [x]) (visitLevel m mv (extractPath row) b x (length seen)) t1).
  rewrite length_app, Nat.add_1_r in IH. simpl in IH. apply IH; try done.
  - by rewrite <- app_assoc.
  - eapply visitLevel_keeps; try done.
    rewrite Hpath. by apply list_lookup_middle.
Qed.

Lemma processRow_keeps (row : SigmaDataRow) (b : Builder) (t : HierarchyNode) :
  In row rows0 -> WellFormed b t ->
  Forall (fun o => P (ofields o)) (heap b) ->
  Forall (fun o => P (ofields o)) (heap (processRow m b row)).
Proof using P_accumulate P_created.
  intros Hrow Hwf Hall. unfold processRow, forEach.
  destruct (extractPath row) as [|x path] eqn:Hpath; [done|].
  rewrite <- Hpath.
  apply (walk_keeps row _ (extractPath row) [] _ t); try done.
  by apply (wf_move b t Hwf [] 0%nat (wf_root _ _ Hwf)).
Qed.

Lemma foldl_keeps (rows : list SigmaDataRow) :
  forall (b : Builder) (t : HierarchyNode),
    incl rows rows0 -> WellFormed b t ->
    Forall (fun o => P (ofields o)) (heap b) ->
    Forall (fun o => P (ofields o)) (heap (foldl (processRow m) b rows)).
Proof using P_accumulate P_created.
  induction rows as [|row rows IH]; intros b t Hincl Hwf Hall; [done|].
  simpl. destruct (processRow_step m b row t Hwf) as (t1 & Hwf1 & _).
  apply (IH _ t1); [|done|].
  - intros r Hr. apply Hincl. by right.
  - apply (processRow_keeps row b t); [|done..]. apply Hincl. by left.
Qed.

(** Every node of the tree built from [rows0] has the property. *)
Lemma built_nodes_keep :
  P rootFields ->
  forall x, In x (nodes (transformToHierarchy rows0 m)) -> P (fields x).
Proof using P_accumulate P_created.
  intros Hroot x Hx.
  destruct (build_wf rows0 m) as (t & Hwf & Ht & _). rewrite Ht in Hx.
  destruct (represents_nodes _ _ _ (wf_represents _ _ Hwf) x Hx)
    as (r & o & Ho & ->).
  assert (Forall (fun o => P (ofields o)) (heap (build rows0 m))) as Hall.
  { apply (foldl_keeps rows0 _ _ (incl_refl _) initialBuilder_wf).
    constructor; [done|constructor]. }
  rewrite List.Forall_forall in Hall. apply Hall.
  apply list_elem_of_In. by eapply list_elem_of_lookup_2.
Qed.
End FieldsInvariant.

(** ** The nodes of a built tree *)

Lemma accumulate_created (m : option (gmap jsstring jsstring))
    (path : list ParsedLevel) (level : ParsedLevel) (index : nat)
    (v : option Z) (mv : Z) :
  exists v', accumulate mv (createdFields m path level index v)
             = createdFields m path level index v'.
Proof. unfold accumulate, createdFields. destruct v; simpl; eauto. Qed.

Lemma built_provenance (rows : list SigmaDataRow)
    (m : option (gmap jsstring jsstring)) (x : HierarchyNode) :
  In x (nodes (transformToHierarchy rows m)) -> Provenance m rows (fields x).
Proof.
  apply (built_nodes_keep m rows (Provenance m rows)).
  - intros mv f Hpath [->|(row & index & level & v & Hrow & Hlevel & ->)]; [done|].
    right. destruct (accumulate_created m (extractPath row) level index v mv)
      as (v' & ->).
    by exists row, index, level, v'.
  - intros row index level v Hrow Hlevel. right. by exists row, index, level, v.
  - by left.
Qed.

Lemma occurrences_count (key : jsstring) (t : HierarchyNode) :
  occurrences key t
  = count_occ pathEqDec
      (map (fun n => Fields.path (fields n)) (nodes t)) key.
Proof.
  induction t as [f cs IH] using HierarchyNode_ind.
  cbn [occurrences nodes map fields children count_occ].
  assert (list_sum (map (occurrences key) cs)
          = count_occ pathEqDec
              (map (fun n => Fields.path (fields n)) (flat_map nodes cs)) key)
    as ->.
  { induction IH as [|c cs Hc _ IHcs]; simpl; [done|].
    by rewrite map_app, count_occ_app, Hc, IHcs. }
  unfold eqPath. destruct (pathEqDec (Fields.path f) key) as [E|E].
  - by rewrite bool_decide_eq_true_2.
  - by rewrite bool_decide_eq_false_2.
Qed.

Section WellFormedTrees.
Variables (b : Builder) (t : HierarchyNode).
Hypothesis Hwf : WellFormed b t.

Lemma wf_nodup : List.NoDup (map (fun n => Fields.path (fields n)) (nodes t)).
Proof using Hwf.
  apply (List.NoDup_count_occ pathEqDec). intros k.
  rewrite <- occurrences_count.
  destruct (decide (occurrences k t = 0%nat)) as [->|Hocc]; [lia|].
  destruct (represents_occurs _ k _ _ (wf_represents _ _ Hwf) Hocc)
    as (r & o & Hr & <-).
  by rewrite (wf_once _ _ Hwf _ _ Hr).
Qed.

Lemma wf_node_keys (k : jsstring) :
  In k (map (fun n => Fields.path (fields n)) (nodes t))
  <-> is_Some (nodeMap b !! k).
Proof using Hwf.
  split.
  - intros Hin. apply in_map_iff in Hin as (x & <- & Hx).
    destruct (represents_nodes _ _ _ (wf_represents _ _ Hwf) x Hx)
      as (r & o & Ho & ->).
    rewrite (wf_keyed _ _ Hwf _ _ Ho). eauto.
  - intros [ref Href].
    destruct (wf_registered _ _ Hwf _ _ Href) as (o & Ho & <-).
    apply (count_occ_In pathEqDec).
    rewrite <- occurrences_count, (wf_once _ _ Hwf _ _ Ho). lia.
Qed.

End WellFormedTrees.

(** *** The keys the builder registers *)

Lemma visitLevel_dom (m : option (gmap jsstring jsstring)) (mv : Z)
    (path : list ParsedLevel) (b : Builder) (level : ParsedLevel) (index : nat)
    (k : jsstring) :
  is_Some (nodeMap (visitLevel m mv path b level index) !! k)
  <-> is_Some (nodeMap b !! k) \/ k = buildPathKey (take (index + 1) path).
Proof.
  unfold visitLevel.
  destruct (nodeMap b !! buildPathKey (take (index + 1) path)) as [e|] eqn:Hkey;
    cbn [nodeMap].
  - split; [by left|]. intros [H| ->]; [done|]. by rewrite Hkey.
  - rewrite lookup_insert_is_Some. split.
    + intros [<-|[_ H]]; [by right | by left].
    + intros [H| ->]; [|by left].
      destruct (decide (buildPathKey (take (index + 1) path) = k)); [by left|].
      by right.
Qed.

Lemma walk_dom (m : option (gmap jsstring jsstring)) (mv : Z)
    (path : list ParsedLevel) (k : jsstring) :
  forall (rest : list ParsedLevel) (from : nat) (b : Builder),
    is_Some (nodeMap (forEachFrom (visitLevel m mv path) rest from b) !! k)
    <-> is_Some (nodeMap b !! k)
        \/ exists i, (from <= i < from + length rest)%nat
                     /\ k = buildPathKey (take (i + 1) path).
Proof.
  induction rest as [|x rest IH]; intros from b; simpl.
  - split; [by left|]. intros [H|(i & Hi & _)]; [done|lia].
  - rewrite IH, visitLevel_dom. split.
    + intros [[H| ->]|(i & Hi & ->)].
      * by left.
      * right. exists from. split; [lia|done].
      * right. exists i. split; [lia|done].
    + intros [H|(i & Hi & ->)]; [by left; left|].
      destruct (decide (i = from)) as [->|Hne].
      * left. by right.
      * right. exists i. split; [lia|done].
Qed.

Lemma in_prefixKeys (row : SigmaDataRow) (k : jsstring) :
  In k (prefixKeys row)
  <-> exists i, (i < length (extractPath row))%nat
                /\ k = buildPathKey (take (i + 1) (extractPath row)).
Proof.
  unfold prefixKeys. rewrite in_map_iff. split.
  - intros (i & <- & Hi). apply in_seq in Hi. exists i. split; [lia|done].
  - intros (i & Hi & ->). exists i. split; [done|]. apply in_seq. lia.
Qed.

Lemma processRow_dom (m : option (gmap jsstring jsstring)) (b : Builder)
    (row : SigmaDataRow) (k : jsstring) :
  is_Some (nodeMap (processRow m b row) !! k)
  <-> is_Some (nodeMap b !! k) \/ In k (prefixKeys row).
Proof.
  rewrite in_prefixKeys. unfold processRow, forEach.
  destruct (extractPath row) as [|x path] eqn:Hpath.
  - split; [by left|]. intros [H|(i & Hi & _)]; [done|simpl in Hi; lia].
  - rewrite walk_dom. cbn [nodeMap]. split.
    + intros [H|(i & Hi & ->)]; [by left|]. right. exists i. split; [lia|done].
    + intros [H|(i & Hi & ->)]; [by left|]. right. exists i. split; [lia|done].
Qed.

Lemma foldl_dom (m : option (gmap jsstring jsstring)) (k : jsstring)
    (rows : list SigmaDataRow) :
  forall b,
    is_Some (nodeMap (foldl (processRow m) b rows) !! k)
    <-> is_Some (nodeMap b !! k)
        \/ exists row, In row rows /\ In k (prefixKeys row).
Proof.
  induction rows as [|row rows IH]; intros b; simpl.
  - split; [by left|]. by intros [H|(row & [] & _)].
  - rewrite IH, processRow_dom. split.
    + intros [[H|H]|(r & Hr & Hk)]; [by left| |].
      * right. exists row. split; [by left|done].
      * right. exists r. split; [by right|done].
    + intros [H|(r & [<-|Hr] & Hk)]; [by left; left| |].
      * left. by right.
      * right. by exists r.
Qed.

Lemma build_dom (rows : list SigmaDataRow) (m : option (gmap jsstring jsstring))
    (k : jsstring) :
  is_Some (nodeMap (build rows m) !! k)
  <-> k = [] \/ exists row, In row rows /\ In k (prefixKeys row).
Proof.
  unfold build. rewrite foldl_dom. simpl.
  rewrite lookup_singleton_is_Some. split; intros [H|H]; auto.
Qed.

(** *** Keys and nodes *)

Lemma findNode_is_Some (t : HierarchyNode) (k : jsstring) :
  In k (map (fun n => Fields.path (fields n)) (nodes t)) ->
  exists n, findNode t k = Some n.
Proof.
  intros Hin. rewrite findNode_find.
  destruct (List.find (hasPathKey k) (nodes t)) as [n|] eqn:Hfind; [eauto|].
  apply in_map_iff in Hin as (x & <- & Hx).
  pose proof (find_none _ _ Hfind x Hx) as Hno.
  unfold hasPathKey, eqPath in Hno. by rewrite bool_decide_eq_true_2 in Hno.
Qed.

(** X1.  No two nodes of a built tree have the same path key. *)
Theorem built_paths_unique (rows : list SigmaDataRow)
    (m : option (gmap jsstring jsstring)) :
  List.NoDup (map (fun n => Fields.path (fields n))
                (nodes (transformToHierarchy rows m))).
Proof.
  destruct (build_wf rows m) as (t & Hwf & -> & _). by eapply wf_nodup.
Qed.

Lemma built_keys (rows : list SigmaDataRow) (m : option (gmap jsstring jsstring))
    (k : jsstring) :
  In k (map (fun n => Fields.path (fields n)) (nodes (transformToHierarchy rows m)))
  <-> k = [] \/ exists row, In row rows /\ In k (prefixKeys row).
Proof.
  destruct (build_wf rows m) as (t & Hwf & -> & _).
  by rewrite (wf_node_keys _ _ Hwf), build_dom.
Qed.



Lemma created_path_nonempty (m : option (gmap jsstring jsstring))
    (row : SigmaDataRow) (level : ParsedLevel) (index : nat) (v : option Z) :
  extractPath row !! index = Some level ->
  Fields.path (createdFields m (extractPath row) level index v) <> [].
Proof.
  intros Hlevel. simpl. apply prefix_key_nonempty. by eapply lookup_lt_Some.
Qed.

Lemma built_root_or_created (rows : list SigmaDataRow)
    (m : option (gmap jsstring jsstring)) (x : HierarchyNode) :
  In x (nodes (transformToHierarchy rows m)) ->
  (Fields.path (fields x) = [] /\ fields x = rootFields)
  \/ (Fields.path (fields x) <> []
      /\ exists row index level v,
           In row rows /\ extractPath row !! index = Some level
           /\ fields x = createdFields m (extractPath row) level index v).
Proof.
  intros Hx.
  destruct (built_provenance rows m x Hx)
    as [->|(row & index & level & v & Hrow & Hlevel & Hf)]; [by left|].
  right. split; [|by exists row, index, level, v].
  rewrite Hf. by apply created_path_nonempty.
Qed.

(** The tree is the root, with its fields untouched, above nodes with
    non-empty keys. *)
Lemma built_tree_shape (rows : list SigmaDataRow)
    (m : option (gmap jsstring jsstring)) :
  exists cs,
    transformToHierarchy rows m = Node rootFields cs
    /\ forall x, In x (flat_map nodes cs) -> Fields.path (fields x) <> [].
Proof.
  pose proof (built_root_or_created rows m) as Hprov.
  destruct (build_wf rows m) as (t & Hwf & Ht & _).
  pose proof (wf_nodup _ _ Hwf) as Hnodup.
  rewrite Ht in *. destruct t as [f cs]. exists cs.
  assert (Fields.path f = []) as Hroot.
  { destruct (represents_inv _ _ _ (wf_represents _ _ Hwf))
      as (o & Ho & Hf & _). simpl in Hf. subst f.
    destruct (wf_registered _ _ Hwf _ _ (wf_root _ _ Hwf)) as (o' & Ho' & Hp).
    congruence. }
  split.
  - f_equal. destruct (Hprov (Node f cs)) as [[_ E]|[E _]]; [by left|done|done].
  - intros x Hx Hpath. cbn [nodes map fields children] in Hnodup.
    apply List.NoDup_cons_iff in Hnodup as [Hnotin _]. apply Hnotin.
    rewrite Hroot, <- Hpath. apply in_map_iff. eauto.
Qed.

(** X3.  A node of a built tree other than the root is the node of one level
    of one row: its label parses to its name and its two codes, its level is
    the position of the label in the effective path, at most 10, its key
    ends with the label, and its full name is what the name map holds under
    its key. *)
Theorem built_node_fields (rows : list SigmaDataRow)
    (m : option (gmap jsstring jsstring)) (x : HierarchyNode) :
  In x (nodes (transformToHierarchy rows m)) ->
  Fields.path (fields x) <> [] ->
  exists row level before,
    In row rows
    /\ take (length before + 1) (extractPath row) = before ++ [level]
    /\ Fields.rawLabel (fields x) = Some (ParsedLevel.raw level)
    /\ ParsedLevel.raw level <> []
    /\ parseLevel (Fields.rawLabel (fields x)) = Some level
    /\ Fields.name (fields x) = ParsedLevel.name level
    /\ Fields.buCode (fields x) = Some (ParsedLevel.buCode level)
    /\ Fields.beblCode (fields x) = Some (ParsedLevel.beblCode level)
    /\ Fields.level (fields x) = Z.of_nat (length before)
    /\ (0 <= Fields.level (fields x) <= 10)%Z
    /\ Fields.path (fields x) = buildPathKey (before ++ [level])
    /\ Fields.beblFullName (fields x)
       = m ≫= (fun m => m !! Fields.path (fields x)).
Proof.
  intros Hx Hpath.
  destruct (built_root_or_created rows m x Hx)
    as [[Hroot _]|(_ & row & index & level & v & Hrow & Hlevel & Hf)]; [done|].
  pose proof (lookup_lt_Some _ _ _ Hlevel) as Hlt.
  pose proof (extractPath_length row) as Hlen.
  assert (length (take index (extractPath row)) = index) as Hbefore
    by (rewrite length_take; lia).
  assert (take (index + 1) (extractPath row)
          = take index (extractPath row) ++ [level]) as Htake
    by (rewrite Nat.add_1_r; by apply take_S_r).
  pose proof (extractPath_elements row) as Helems.
  rewrite List.Forall_forall in Helems.
  destruct (Helems level) as [Hparse Hraw].
  { apply list_elem_of_In. by eapply list_elem_of_lookup_2. }
  exists row, level, (take index (extractPath row)).
  rewrite Hbefore, Hf. cbn [createdFields Fields.rawLabel Fields.name
    Fields.buCode Fields.beblCode Fields.level Fields.path Fields.beblFullName].
  rewrite <- Htake. repeat split; try done; lia.
Qed.

(** The node of the first level of the example rows. *)
Lemma built_node_fields_witness :
  exists x row level before,
    Fields.path (fields x) = lit "A (1)-X"
    /\ In row exampleRows
    /\ take (length before + 1) (extractPath row) = before ++ [level]
    /\ parseLevel (Fields.rawLabel (fields x)) = Some level
    /\ Fields.level (fields x) = Z.of_nat (length before).
Proof.
  destruct (findNode_is_Some (transformToHierarchy exampleRows None)
              (lit "A (1)-X")) as (x & Hfind).
  { apply built_keys. right. exists (exampleRow 100 "A (1)-X" "B (2)-Y").
    split; by left. }
  apply findNode_Some in Hfind as [Hx Hpath].
  destruct (built_node_fields exampleRows None x Hx)
    as (row & level & before & Hrow & Htake & _ & _ & Hparse & _ & _ & _
        & Hlevel & _).
  { by rewrite Hpath. }
  by exists x, row, level, before.
Defined.

Lemma built_below (rows : list SigmaDataRow)
    (m : option (gmap jsstring jsstring)) :
  exists cs,
    transformToHierarchy rows m = Node rootFields cs
    /\ List.filter nonRoot (nodes (Node rootFields cs)) = flat_map nodes cs
    /\ forall x, In x (flat_map nodes cs) ->
         Fields.path (fields x) <> [] /\ (0 <= Fields.level (fields x))%Z.
Proof.
  destruct (built_tree_shape rows m) as (cs & Ht & Hcs). exists cs.
  assert (forall x, In x (flat_map nodes cs) ->
            Fields.path (fields x) <> [] /\ (0 <= Fields.level (fields x))%Z)
    as Hbelow.
  { intros x Hx. split; [by apply Hcs|].
    destruct (built_root_or_created rows m x)
      as [[Hroot _]|(_ & row & index & level & v & _ & _ & Hf)].
    - rewrite Ht. by right.
    - by apply Hcs in Hroot.
    - rewrite Hf. simpl. lia. }
  split; [done|]. split; [|done].
  cbn [fields children nodes List.filter]. unfold nonRoot at 1. cbn.
  apply forallb_filter_id, forallb_forall. intros x Hx.
  unfold nonRoot. apply Z.leb_le. by apply Hbelow.
Qed.

(** X4.  The root of a built tree keeps the fields it was created with: the
    name "Root", level -1, the empty key and no value; every other node has
    a non-empty key and a level from 0, so the root alone is left out of the
    search records. *)
Theorem built_root (rows : list SigmaDataRow)
    (m : option (gmap jsstring jsstring)) :
  fields (transformToHierarchy rows m) = rootFields
  /\ List.filter nonRoot (nodes (transformToHierarchy rows m))
     = flat_map nodes (children (transformToHierarchy rows m))
  /\ forall x, In x (flat_map nodes (children (transformToHierarchy rows m))) ->
       Fields.path (fields x) <> [] /\ (0 <= Fields.level (fields x))%Z.
Proof.
  destruct (built_below rows m) as (cs & -> & Hfilter & Hbelow).
  by cbn [fields children].
Qed.

Lemma extractPath_prefixKeys (row : SigmaDataRow) :
  prefixKeys row = [] <-> extractPath row = [].
Proof.
  unfold prefixKeys. split.
  - intros H. apply (f_equal length) in H.
    rewrite length_map, length_seq in H. by apply nil_length_inv.
  - by intros ->.
Qed.

(** X5.  The root of a built tree has no children exactly when no row has a
    level: the tree is then the bare root, whatever the market values. *)
Theorem built_empty (rows : list SigmaDataRow)
    (m : option (gmap jsstring jsstring)) :
  transformToHierarchy rows m = Node rootFields []
  <-> Forall (fun row => extractPath row = []) rows.
Proof.
  destruct (built_tree_shape rows m) as (cs & Ht & Hcs). split.
  - intros Hbare. apply List.Forall_forall. intros row Hrow.
    apply extractPath_prefixKeys.
    destruct (prefixKeys row) as [|k ks] eqn:Hkeys; [done|]. exfalso.
    assert (In k (map (fun n => Fields.path (fields n))
                    (nodes (transformToHierarchy rows m)))) as Hin.
    { apply built_keys. right. exists row. split; [done|].
      rewrite Hkeys. by left. }
    rewrite Hbare in Hin. destruct Hin as [<-|[]].
    assert (In [] (prefixKeys row)) as Hk by (rewrite Hkeys; by left).
    apply in_prefixKeys in Hk as (i & Hi & Hk).
    by apply (prefix_key_nonempty row i Hi).
  - intros Hnone. rewrite Ht. f_equal.
    destruct cs as [|c cs]; [done|]. exfalso.
    assert (In c (flat_map nodes (c :: cs))) as Hc.
    { apply in_flat_map. exists c. split; [by left|]. destruct c. by left. }
    assert (In (Fields.path (fields c))
              (map (fun n => Fields.path (fields n))
                 (nodes (transformToHierarchy rows m)))) as Hin.
    { apply in_map_iff. exists c. split; [done|]. rewrite Ht. by right. }
    apply built_keys in Hin as [Hroot|(row & Hrow & Hk)].
    + by apply (Hcs c Hc).
    + rewrite List.Forall_forall in Hnone.
      pose proof (proj2 (extractPath_prefixKeys row) (Hnone row Hrow)) as Hkeys.
      by rewrite Hkeys in Hk.
Qed.

(** *** Search records of a built tree *)

Lemma nodup_map_inj {A B : Type} (f : A -> B) (l : list A) (a b : A) :
  List.NoDup (map f l) -> In a l -> In b l -> f a = f b -> a = b.
Proof.
  induction l as [|x l IH]; [done|]. cbn [map].
  intros Hnodup Ha Hb Hf. apply List.NoDup_cons_iff in Hnodup as [Hx Hl].
  destruct Ha as [->|Ha], Hb as [->|Hb]; [done| | |by apply IH].
  - exfalso. apply Hx. rewrite Hf. by apply in_map.
  - exfalso. apply Hx. rewrite <- Hf. by apply in_map.
Qed.


(** *** The order of the rows *)







(** ** The focus and its breadcrumbs *)

Lemma nodes_child (t c x : HierarchyNode) :
  In c (children t) -> In x (nodes c) -> In x (nodes t).
Proof.
  intros Hc Hx. destruct t as [f cs]. right. apply in_flat_map. eauto.
Qed.

Lemma nodes_self (t : HierarchyNode) : In t (nodes t).
Proof. destruct t. by left. Qed.

Lemma nodes_trans (t : HierarchyNode) :
  forall a x, In a (nodes t) -> In x (nodes a) -> In x (nodes t).
Proof.
  induction t as [f cs IH] using HierarchyNode_ind. intros a x Ha Hx.
  destruct Ha as [<-|Ha]; [done|]. right.
  apply in_flat_map in Ha as (c & Hc & Ha). apply in_flat_map. exists c.
  split; [done|]. rewrite List.Forall_forall in IH. by apply (IH c Hc a x).
Qed.

Lemma chain_nodes (t n : HierarchyNode) (anc : list HierarchyNode) :
  Chain t anc n ->
  In n (nodes t)
  /\ forall a, In a anc -> In a (nodes t) /\ children a <> [].
Proof.
  induction 1 as [t|t c anc n Hc _ [IHn IHanc]].
  - split; [apply nodes_self|done].
  - split; [by eapply nodes_child|].
    intros a [<-|Ha].
    + split; [apply nodes_self|]. by destruct (children t).
    + destruct (IHanc a Ha) as [Hin Hchildren].
      split; [by eapply nodes_child|done].
Qed.

(** [findPath] hits where [findNode] finds; the trail then is the chain down
    to the node found, around what the trail held before.  A miss leaves the
    trail as it was. *)
Lemma findPath_trail (t : HierarchyNode) :
  forall target trail,
    match findNode t target with
    | Some n =>
        exists anc,
          Chain t anc n
          /\ findPath t target trail
             = (true, List.filter nonRoot anc ++ trail ++ List.filter nonRoot [n])
    | None => findPath t target trail = (false, trail)
    end.
Proof.
  induction t as [f cs IH] using HierarchyNode_ind. intros target trail.
  cbn [findNode findPath fields children].
  destruct (eqPath (Fields.path f) target).
  { exists []. split; [constructor|]. cbn [List.filter app].
    unfold nonRoot. cbn [fields].
    destruct (0 <=? Fields.level f)%Z; by rewrite ?app_nil_r. }
  set (t := Node f cs).
  assert (forall c, In c cs -> In c (children t)) as Hsub by done.
  assert (nonRoot t = (0 <=? Fields.level f)%Z) as Hlevel by done.
  clearbody t. revert trail.
  induction IH as [|c cs' Hc _ IHcs]; intros trail; [done|].
  specialize (Hc target trail).
  destruct (findNode c target) as [n|].
  - destruct Hc as (anc & Hchain & ->). exists (t :: anc).
    split; [apply (Chain_down t c); [apply Hsub; by left|done]|].
    cbn [List.filter]. rewrite Hlevel.
    by destruct (0 <=? Fields.level f)%Z.
  - rewrite Hc. apply IHcs. intros c' Hc'. apply Hsub. by right.
Qed.

(** X8.  The breadcrumb trail [findPath] builds: it hits exactly when
    [findNode] finds a node, the trail then lists the nodes from the tree
    down to the node found, each the parent of the next, without those of
    negative level; on a miss the trail is empty. *)
Theorem findPath_breadcrumbs (data : HierarchyNode) (target : jsstring) :
  match findNode data target with
  | Some n =>
      exists anc,
        Chain data anc n
        /\ findPath data target [] = (true, List.filter nonRoot (anc ++ [n]))
  | None => findPath data target [] = (false, [])
  end.
Proof.
  pose proof (findPath_trail data target []) as H.
  destruct (findNode data target) as [n|]; [|done].
  destruct H as (anc & Hchain & ->). exists anc. split; [done|].
  by rewrite List.filter_app.
Qed.

(** X9.  Selecting a search result does what a click on the node found for
    it does, when that node has children. *)
Theorem handleSearchSelect_as_click (data : HierarchyNode)
    (result : SearchResult) (st : AppState) (n : HierarchyNode) :
  findNode data (SearchResult.path result) = Some n ->
  children n <> [] ->
  handleSearchSelect (Some data) result st
  = handleNodeClick (Some data) (Some n) st.
Proof.
  intros Hfind Hchildren. unfold handleSearchSelect, handleNodeClick.
  rewrite Hfind. apply findNode_Some in Hfind as [_ ->].
  by destruct (children n).
Qed.

Lemma handleSearchSelect_as_click_witness :
  let tree := transformToHierarchy exampleRows None in
  exists n result,
    SearchResult.path result = lit "A (1)-X"
    /\ map (fun c => Fields.path (fields c)) (breadcrumbs
         (handleSearchSelect (Some tree) result (mkAppState None [])))
       = [lit "A (1)-X"]
    /\ handleSearchSelect (Some tree) result (mkAppState None [])
       = handleNodeClick (Some tree) (Some n) (mkAppState None []).
Proof.
  intros tree.
  destruct (findNode tree (lit "A (1)-X")) as [n|] eqn:Hfind; [|done].
  exists n, (SearchResult.mk [] None None None None (lit "A (1)-X") 0 0).
  split; [done|]. split; [reflexivity|].
  apply (handleSearchSelect_as_click tree _ _ n); [done|].
  vm_compute in Hfind. by injection Hfind as <-.
Defined.

Lemma focus_resolved (tree n : HierarchyNode) (p : jsstring) :
  findNode tree p = Some n -> children n <> [] ->
  FocusInvariant tree (mkAppState (Some p) (snd (findPath tree p []))).
Proof.
  intros Hfind Hchildren. unfold FocusInvariant. cbn [focusedPath breadcrumbs].
  pose proof (findPath_trail tree p []) as H. rewrite Hfind in H.
  destruct H as (anc & Hchain & ->). exists anc, n.
  by rewrite List.filter_app.
Qed.

Lemma focus_on_node (tree n : HierarchyNode) (st : AppState) :
  List.NoDup (map (fun n => Fields.path (fields n)) (nodes tree)) ->
  In n (nodes tree) -> children n <> [] ->
  FocusInvariant tree (handleNodeClick (Some tree) (Some n) st).
Proof.
  intros Hnodup Hn Hchildren. unfold handleNodeClick.
  apply (focus_resolved tree n); [|done].
  destruct (findNode_is_Some tree (Fields.path (fields n))) as (n' & Hfind).
  { by apply (in_map (fun n => Fields.path (fields n))) in Hn. }
  rewrite Hfind. f_equal. apply findNode_Some in Hfind as [Hn' Hpath].
  by apply (nodup_map_inj (fun n => Fields.path (fields n)) (nodes tree)).
Qed.

Lemma layout_data (tree : HierarchyNode) (focus : option jsstring) (d : D3Node) :
  In d (descendants (layoutHierarchy tree focus)) ->
  In (data d) (nodes tree).
Proof.
  unfold layoutHierarchy, hierarchy. intros Hd.
  eapply Permutation_in in Hd; [|apply d3sort_descendants].
  apply in_map_iff in Hd as (d' & <- & Hd').
  destruct (d3sort_data
              (fun a b => (orZero (d3value b) - orZero (d3value a) <=? 0)%Z) d')
    as [-> _].
  apply (in_map data) in Hd'.
  destruct (d3sum_hierarchy (fun d => orZero (Fields.value (fields d)))
              (focusedNode tree focus) 0) as (_ & _ & Hnodes & _).
  rewrite Hnodes in Hd'.
  by apply (nodes_trans tree (focusedNode tree focus)); [apply focusedNode_in_tree|].
Qed.

Lemma handle_keeps (tree : HierarchyNode) (st : AppState) (ev : Event) :
  List.NoDup (map (fun n => Fields.path (fields n)) (nodes tree)) ->
  FocusInvariant tree st -> Enabled tree st ev ->
  FocusInvariant tree (handle tree st ev).
Proof.
  intros Hnodup Hinv Henabled. destruct ev as [d|result| | |index]; cbn [handle].
  - unfold clickedNode. destruct (depth d =? 0)%nat; [done|].
    destruct (children (data d)) as [|c cs] eqn:Hchildren; [done|].
    apply focus_on_node; [done| |by rewrite Hchildren].
    by apply (layout_data tree (focusedPath st)).
  - unfold handleSearchSelect.
    destruct (findNode tree (SearchResult.path result)) as [n|] eqn:Hfind; [|done].
    destruct (children n) as [|c cs] eqn:Hchildren; [done|].
    apply (focus_resolved tree n); [done|by rewrite Hchildren].
  - done.
  - done.
  - destruct (breadcrumbs st !! index) as [node|] eqn:Hnode; [|done].
    apply list_elem_of_lookup_2, list_elem_of_In in Hnode.
    unfold FocusInvariant in Hinv.
    destruct (focusedPath st) as [p|]; [|by rewrite Hinv in Hnode].
    destruct Hinv as (anc & n & Hfind & Hchildren & Hchain & Htrail).
    rewrite Htrail in Hnode. apply filter_In in Hnode as [Hnode _].
    destruct (chain_nodes _ _ _ Hchain) as [Hn Hanc].
    unfold handleBreadcrumbClick.
    apply in_app_iff in Hnode as [Hnode|[<-|[]]].
    + destruct (Hanc node Hnode). by apply focus_on_node.
    + by apply focus_on_node.
Qed.

(** X10.  Whatever the user does to the focus of a tree built from rows, the
    focused path names a node of the tree that has children, the breadcrumbs
    are the nodes on the way down to it, and the layout is made from that
    very node: the view neither zooms on a leaf nor falls back to the whole
    tree for a path that is not there. *)
Theorem focus_invariant (rows : list SigmaDataRow)
    (m : option (gmap jsstring jsstring)) (st : AppState) :
  Reachable (transformToHierarchy rows m) st ->
  FocusInvariant (transformToHierarchy rows m) st
  /\ forall p, focusedPath st = Some p ->
       Fields.path (fields (focusedNode (transformToHierarchy rows m) (Some p))) = p
       /\ children (focusedNode (transformToHierarchy rows m) (Some p)) <> [].
Proof.
  intros Hreach.
  assert (FocusInvariant (transformToHierarchy rows m) st) as Hinv.
  { induction Hreach as [|st ev _ IH Henabled]; [done|].
    apply handle_keeps; [|done|done].
    destruct (build_wf rows m) as (t & Hwf & -> & _). by eapply wf_nodup. }
  split; [done|]. intros p Hp. unfold FocusInvariant in Hinv. rewrite Hp in Hinv.
  destruct Hinv as (anc & n & Hfind & Hchildren & _).
  unfold focusedNode. destruct p as [|x p]; cbn [truthy default from_option];
    unfold Datatypes.id.
  - destruct (built_tree_shape rows m) as (cs & Ht & _). rewrite Ht in Hfind |- *.
    cbn in Hfind. injection Hfind as <-. by cbn [fields children] in *.
  - rewrite Hfind. by apply findNode_Some in Hfind as [_ ->].
Qed.

(** The state after a search result for "A (1)-X" has been selected on the
    tree of the example. *)
Lemma focus_invariant_witness :
  let tree := transformToHierarchy exampleRows None in
  let result := SearchResult.mk [] None None None None (lit "A (1)-X") 0 0 in
  focusedPath (handle tree (mkAppState None []) (SearchSelect result))
  = Some (lit "A (1)-X")
  /\ FocusInvariant tree (handle tree (mkAppState None []) (SearchSelect result)).
Proof.
  intros tree result. split; [reflexivity|].
  apply (focus_invariant exampleRows None).
  apply Reachable_step; [apply Reachable_initial|exact I].
Defined.

(** ** The name map *)

Lemma recordNameLoop_lookup (fullName k : jsstring) (present : list jsstring)
    (rest : list (option jsstring)) :
  Forall (fun s => s <> []) present ->
  match rest with [] => True | gap :: _ => truthy gap = false end ->
  forall pathParts m,
    recordNameLoop (map Some present ++ rest) pathParts fullName m !! k
    = if existsb (eqPath k)
           (map (fun i => join [PIPE] (pathParts ++ take (i + 1) present))
              (seq 0 (length present)))
      then Some fullName else m !! k.
Proof.
  intros Hpresent Hgap.
  induction Hpresent as [|s present Hs _ IH]; intros pathParts m.
  - cbn [map app length seq existsb]. destruct rest as [|gap rest]; [done|].
    cbn [recordNameLoop]. by rewrite Hgap.
  - cbn [map app recordNameLoop length seq existsb].
    assert (truthy (Some s) = true) as -> by by destruct s.
    cbn [negb default from_option]. unfold Datatypes.id. rewrite IH.
    rewrite <- seq_shift, map_map. cbn [Nat.add take].
    rewrite (map_ext (fun i => join [PIPE] (pathParts ++ take (S i + 1) (s :: present)))
               (fun i => join [PIPE] ((pathParts ++ [s]) ++ take (i + 1) present))).
    2:{ intros i. cbn [Nat.add take]. by rewrite <- app_assoc. }
    destruct (existsb _ _); [by rewrite orb_true_r|]. rewrite orb_false_r.
    unfold eqPath. rewrite take_0.
    case_bool_decide as Hk; [by rewrite Hk, lookup_insert_eq
                            |by rewrite lookup_insert_ne].
Qed.

Lemma prefixKeys_present (row : SigmaDataRow) (present : list jsstring) :
  EffectivePath (levels row) present ->
  prefixKeys row
  = map (fun i => join [PIPE] (take (i + 1) present)) (seq 0 (length present)).
Proof.
  intros Heff.
  destruct (extractPathLoop_effective present (levels row) Heff) as [Hraw _].
  fold (extractPath row) in Hraw. unfold prefixKeys, buildPathKey.
  rewrite <- Hraw, length_map. apply map_ext. intros i.
  by rewrite firstn_map.
Qed.

Lemma recordFullName_lookup (m : gmap jsstring jsstring) (row : SigmaDataRow)
    (k : jsstring) :
  recordFullName m row !! k
  = if namesKey k row then SigmaDataRow.beblFullName row else m !! k.
Proof.
  unfold recordFullName, namesKey.
  destruct (truthy (SigmaDataRow.beblFullName row)) eqn:Hname; [|done].
  destruct (SigmaDataRow.beblFullName row) as [[|x fullName]|]; try done.
  cbn [andb default from_option]. unfold Datatypes.id.
  destruct (effectivePath_exists (levels row))
    as (present & Hpresent & rest & Hlevels & Hgap).
  rewrite (prefixKeys_present row present)
    by (split; [done|by exists rest]).
  rewrite Hlevels.
  by rewrite (recordNameLoop_lookup _ k present rest Hpresent Hgap [] m).
Qed.

Lemma foldl_recordFullName (rows : list SigmaDataRow) (k : jsstring) :
  forall m,
    foldl recordFullName m rows !! k
    = match last (List.filter (namesKey k) rows) with
      | Some row => SigmaDataRow.beblFullName row
      | None => m !! k
      end.
Proof.
  induction rows as [|row rows IH] using rev_ind; intros m; [done|].
  rewrite foldl_snoc, recordFullName_lookup, List.filter_app.
  cbn [List.filter]. destruct (namesKey k row).
  - by rewrite last_snoc.
  - by rewrite app_nil_r, IH.
Qed.

Lemma lastNameFor_root (rows : list SigmaDataRow) : lastNameFor rows [] = None.
Proof.
  unfold lastNameFor.
  assert (List.filter (namesKey []) rows = []) as ->; [|done].
  induction rows as [|row rows IH]; [done|]. cbn [List.filter].
  assert (namesKey [] row = false) as ->; [|done].
  unfold namesKey. apply andb_false_intro2.
  destruct (existsb (eqPath []) (prefixKeys row)) eqn:Hex; [|done].
  apply existsb_exists in Hex as (k & Hk & Heq).
  unfold eqPath in Heq. apply bool_decide_eq_true_1 in Heq. subst k.
  apply in_prefixKeys in Hk as (i & Hi & Hk). symmetry in Hk.
  by apply prefix_key_nonempty in Hk.
Qed.

(** X11.  The name map [App.tsx] builds holds, under the key of every prefix
    of the levels of a row with a full name, the full name of the last such
    row in the data; accordingly every node of the tree handed to the
    components carries the full name of the last row with a full name whose
    path passes through the node, and none when there is no such row. *)
Theorem hierarchyOf_fullNames (rows : list SigmaDataRow) :
  (forall k, buildNameMap rows !! k = lastNameFor rows k)
  /\ forall x, In x (nodes (hierarchyOf rows)) ->
       Fields.beblFullName (fields x) = lastNameFor rows (Fields.path (fields x)).
Proof.
  assert (forall k, buildNameMap rows !! k = lastNameFor rows k) as Hmap.
  { intros k. unfold buildNameMap, lastNameFor.
    rewrite foldl_recordFullName.
    by destruct (last (List.filter (namesKey k) rows)). }
  split; [done|]. intros x Hx.
  destruct (built_root_or_created rows (Some (buildNameMap rows)) x Hx)
    as [[_ ->]|(_ & row & index & level & v & _ & _ & ->)].
  - by rewrite lastNameFor_root.
  - cbn. apply Hmap.
Qed.

(** The map on rows with two full names for the same first level. *)
Lemma hierarchyOf_fullNames_witness :
  let rows :=
    [ SigmaDataRow.mk (Some 100%Z) (Some (lit "Ann")) (Some (lit "A (1)-X"))
        (Some (lit "B (2)-Y")) None None None None None None None None None;
      SigmaDataRow.mk (Some 200%Z) (Some (lit "Bob")) (Some (lit "A (1)-X"))
        (Some (lit "C (3)-Z")) None None None None None None None None None ] in
  buildNameMap rows !! lit "A (1)-X" = Some (lit "Bob")
  /\ map (fun x => Fields.beblFullName (fields x)) (nodes (hierarchyOf rows))
     = [None; Some (lit "Bob"); Some (lit "Ann"); Some (lit "Bob")].
Proof.
  intros rows. destruct (hierarchyOf_fullNames rows) as [Hmap Hnodes].
  split; [by rewrite Hmap|].
  rewrite (map_ext_in _ (fun x => lastNameFor rows (Fields.path (fields x))) _ Hnodes).
  reflexivity.
Defined.

(** ** Level strings without the delimiter *)

Lemma join_cons (p : jsstring) (rest : list jsstring) :
  join [PIPE] (p :: rest)
  = p ++ match rest with [] => [] | _ :: _ => PIPE :: join [PIPE] rest end.
Proof. destruct rest; simpl; [by rewrite app_nil_r|done]. Qed.

Lemma segment_inj (p : jsstring) :
  forall q s1 s2,
    ~ In PIPE p -> ~ In PIPE q ->
    (s1 = [] \/ exists t, s1 = PIPE :: t) ->
    (s2 = [] \/ exists t, s2 = PIPE :: t) ->
    p ++ s1 = q ++ s2 -> p = q /\ s1 = s2.
Proof.
  induction p as [|x p IH]; intros [|y q] s1 s2 Hp Hq Hs1 Hs2 Heq.
  - done.
  - simpl in Heq. destruct Hs1 as [->|(t & ->)]; [done|].
    injection Heq as <- _. exfalso. apply Hq. by left.
  - simpl in Heq. destruct Hs2 as [->|(t & ->)]; [done|].
    injection Heq as -> _. exfalso. apply Hp. by left.
  - injection Heq as -> Heq.
    destruct (IH q s1 s2) as [-> ->]; try done.
    + intros H. apply Hp. by right.
    + intros H. apply Hq. by right.
Qed.

Lemma join_inj (l1 : list jsstring) :
  forall l2,
    Forall (fun s => s <> [] /\ ~ In PIPE s) l1 ->
    Forall (fun s => s <> [] /\ ~ In PIPE s) l2 ->
    join [PIPE] l1 = join [PIPE] l2 -> l1 = l2.
Proof.
  induction l1 as [|p r1 IH]; intros [|q r2] H1 H2 Heq.
  - done.
  - rewrite join_cons in Heq. inversion H2 as [|? ? [Hq _] _]; subst.
    by destruct q.
  - rewrite join_cons in Heq. inversion H1 as [|? ? [Hp _] _]; subst.
    by destruct p.
  - rewrite !join_cons in Heq.
    inversion H1 as [|? ? [_ Hp] Hr1]; inversion H2 as [|? ? [_ Hq] Hr2]; subst.
    apply segment_inj in Heq as [-> Htail]; try done.
    + f_equal. destruct r1, r2; try done. injection Htail as Htail.
      by apply IH.
    + destruct r1; eauto.
    + destruct r2; eauto.
Qed.

Lemma count_pipe_free (s : jsstring) :
  ~ In PIPE s -> count_occ N.eq_dec s PIPE = 0%nat.
Proof. intros H. by apply count_occ_not_In. Qed.

Lemma join_pipe_count (l : list jsstring) :
  Forall (fun s => ~ In PIPE s) l ->
  count_occ N.eq_dec (join [PIPE] l) PIPE = (length l - 1)%nat.
Proof.
  induction 1 as [|p rest Hp _ IH]; [done|].
  rewrite join_cons, count_occ_app, (count_pipe_free p Hp).
  destruct rest as [|q rest]; [done|].
  rewrite count_occ_cons_eq by done. rewrite IH. simpl. lia.
Qed.

Lemma pipeFree_raws (row : SigmaDataRow) :
  pipeFree row ->
  Forall (fun s => s <> [] /\ ~ In PIPE s) (map ParsedLevel.raw (extractPath row)).
Proof.
  intros Hfree. apply Forall_map.
  pose proof (extractPath_elements row) as Helems.
  unfold pipeFree in Hfree. rewrite List.Forall_forall in *.
  intros p Hp. split; [by apply (Helems p Hp)|by apply Hfree].
Qed.

Lemma raws_determine (row row' : SigmaDataRow) :
  map ParsedLevel.raw (extractPath row') = map ParsedLevel.raw (extractPath row) ->
  extractPath row' = extractPath row.
Proof.
  pose proof (extractPath_elements row) as H.
  pose proof (extractPath_elements row') as H'.
  revert H H'. generalize (extractPath row) as l, (extractPath row') as l'.
  induction l as [|p l IH]; intros [|p' l'] H H' Heq; try done.
  inversion H as [|? ? [Hp _] Hl]; inversion H' as [|? ? [Hp' _] Hl']; subst.
  injection Heq as Hraw Heq. f_equal; [|by apply IH].
  rewrite Hraw in Hp'. congruence.
Qed.
